(** * The copy-button rehype pass of the blog build ([rehypeCopyButton])

    A shallow embedding of the two functions of the build configuration
    that rewrite the document tree, [rehypeCopyButton] (with its local
    [visit]) and [extractTextFromNode], and the properties of the pass;
    then of [assetsInlineLimit] of the same configuration, of the click
    handler of the page that serves the copy buttons, and of the state and
    the tabs of the article list. *)

From Stdlib Require Import Ascii String List Bool Arith Lia DecimalString DecimalNat.
From stdpp Require Import base option list strings gmap.
Import ListNotations.

Local Open Scope string_scope.
Local Open Scope list_scope.

(** ** Document tree nodes

    The pass is typed [any] and looks at four fields of a node only:
    [type], [tagName], [children] and [value].  A node is a record in which
    every field but [type] may be absent ([None] is JavaScript's
    [undefined]): the object literals of the pass itself have no [value],
    and its [rect], [path] and [polyline] literals have no [children]. *)

Inductive prop : Type :=
| PUndef
| PBool (b : bool)
| PStr (s : string)
| PList (l : list string).

(** An object literal of properties, keys in the order they are written. *)
Definition props : Type := list (string * prop).

Fixpoint get_prop (k : string) (ps : props) : option prop :=
  match ps with
  | [] => None
  | (k', v) :: ps' => if String.eqb k k' then Some v else get_prop k ps'
  end.

Unset Elimination Schemes.
Inductive node : Type :=
  Node { type : string;
         tagName : option string;
         properties : option props;
         children : option (list node);
         value : option string }.
Set Elimination Schemes.

(** Induction over a node and the nodes of its [children] array. *)
Section node_induction.
Variable P : node -> Prop.
Hypothesis P_leaf : forall ty tg ps v, P (Node ty tg ps None v).
Hypothesis P_inner : forall ty tg ps l v,
    Forall P l -> P (Node ty tg ps (Some l) v).

Fixpoint node_children_ind (n : node) : P n :=
  match n with
  | Node ty tg ps ch v =>
      match ch as o return P (Node ty tg ps o v) with
      | None => P_leaf ty tg ps v
      | Some l =>
          P_inner ty tg ps l v
            ((fix all (l : list node) : Forall P l :=
                match l with
                | [] => List.Forall_nil P
                | c :: l' => List.Forall_cons P c l' (node_children_ind c) (all l')
                end) l)
      end
  end.
End node_induction.

(** [node.children = cs], the other fields kept. *)
Definition set_children (n : node) (cs : list node) : node :=
  Node (type n) (tagName n) (properties n) (Some cs) (value n).

(** [node.properties[k]] *)
Definition attr (k : string) (n : node) : option prop :=
  match properties n with
  | Some ps => get_prop k ps
  | None => None
  end.

(** [n.type === 'element' && n.tagName === tag] *)
Definition is_element (tag : string) (n : node) : bool :=
  String.eqb (type n) "element" &&
  match tagName n with
  | Some t => String.eqb t tag
  | None => false
  end.

(** ** [extractTextFromNode]

    The result is [None] when the function returns [undefined], which it
    does on a node of type [text] that has no [value].  [Array.join] writes
    an [undefined] element as the empty string. *)

Definition join (parts : list (option string)) : string :=
  String.concat "" (map (default "") parts).

Fixpoint extractTextFromNode (n : node) : option string :=
  match n with
  | Node ty _ _ ch v =>
      if String.eqb ty "text" then v
      else match ch with
           | Some l => Some (join (map extractTextFromNode l))
           | None => Some ""
           end
  end.

(** ** The nodes the pass creates *)

Definition element (tag : string) (ps : props) (ch : option (list node)) : node :=
  Node "element" (Some tag) (Some ps) ch None.

Definition icon_props (classes : list string) : props :=
  [ ("className", PList classes);
    ("width", PStr "16");
    ("height", PStr "16");
    ("viewBox", PStr "0 0 24 24");
    ("fill", PStr "none");
    ("stroke", PStr "currentColor");
    ("strokeWidth", PStr "2");
    ("strokeLinecap", PStr "round");
    ("strokeLinejoin", PStr "round") ].

Definition copy_icon : node :=
  element "svg" (icon_props ["copy-icon"])
    (Some
       [ element "rect"
           [ ("width", PStr "14"); ("height", PStr "14");
             ("x", PStr "8"); ("y", PStr "8");
             ("rx", PStr "2"); ("ry", PStr "2") ]
           None;
         element "path"
           [ ("d", PStr "m4 16c-1.1 0-2-.9-2-2V4c0-1.1.9-2 2-2h10c1.1 0 2 .9 2 2") ]
           None ]).

Definition check_icon : node :=
  element "svg" (icon_props ["check-icon"; "hidden"])
    (Some [ element "polyline" [ ("points", PStr "20,6 9,17 4,12") ] None ]).

(** The value of a property written from a possibly [undefined] string. *)
Definition prop_of_text (t : option string) : prop :=
  match t with
  | Some s => PStr s
  | None => PUndef
  end.

Definition copyButton (codeText : option string) : node :=
  element "button"
    [ ("className", PList ["copy-code-button"]);
      ("data-code", prop_of_text codeText);
      ("title", PStr "Copy code") ]
    (Some [copy_icon; check_icon]).

Definition container (n button : node) : node :=
  element "div"
    [ ("className", PList ["code-block-container"; "group"]) ]
    (Some [n; button]).

(** ** [visit] and [rehypeCopyButton] *)

(** [node.children?.find(child => child.type === 'element' &&
    child.tagName === 'code')] *)
Definition find_code (n : node) : option node :=
  match children n with
  | Some l => List.find (is_element "code") l
  | None => None
  end.

(** The [codeElement] of the branch that wraps: [Some] exactly when both
    [if]s of [visit] are taken. *)
Definition codeElement (n : node) : option node :=
  if is_element "pre" n then find_code n else None.

(** [visit n] is the pair of the object [n] as the call leaves it and of
    the reference the call returns.  The input is a tree, every object in
    it has one parent, so the assignment to [node.children] is seen through
    the returned reference only.  In the branch that wraps, [n] is left as
    it was and a new container is returned; in the other the two are the
    same object. *)
Fixpoint visit (n : node) : node * node :=
  match n with
  | Node ty tg ps ch v =>
      match codeElement n with
      | Some code =>
          (n, container n (copyButton (extractTextFromNode code)))
      | None =>
          match ch with
          | Some l =>
              let n' := set_children n (map (fun c => snd (visit c)) l) in
              (n', n')
          | None => (n, n)
          end
      end
  end.

(** [(tree) => { ...; visit(tree); }]: the returned reference is dropped,
    the result of the pass is the tree object itself. *)
Definition rehypeCopyButton (tree : node) : node := fst (visit tree).

(** ** The calls of [visit]

    A node object of the input is named by its position, the child indices
    on the way from the root.  [visit_traced p n] is [visit n] for the node
    at position [p], with the list of the positions [visit] is called on, in
    the order of the calls ([Array.map] calls it on the children from index
    0 upwards). *)

Definition path : Type := list nat.

Definition map_traced (f : path -> node -> (node * node) * list path) (p : path) :
  nat -> list node -> list node * list path :=
  fix each (i : nat) (l : list node) : list node * list path :=
    match l with
    | [] => ([], [])
    | c :: l' =>
        let '(r, calls) := f (p ++ [i]) c in
        let '(rs, calls') := each (S i) l' in
        (snd r :: rs, calls ++ calls')
    end.

Fixpoint visit_traced (p : path) (n : node) : (node * node) * list path :=
  match n with
  | Node ty tg ps ch v =>
      match codeElement n with
      | Some code =>
          ((n, container n (copyButton (extractTextFromNode code))), [p])
      | None =>
          match ch with
          | Some l =>
              let '(rs, calls) := map_traced visit_traced p 0 l in
              let n' := set_children n rs in
              ((n', n'), p :: calls)
          | None => ((n, n), [p])
          end
      end
  end.

(** ** Positions in a tree *)

(** The node at position [p] below [n]. *)
Fixpoint subtree (p : path) (n : node) : option node :=
  match p with
  | [] => Some n
  | i :: p' =>
      match children n with
      | Some l =>
          match l !! i with
          | Some c => subtree p' c
          | None => None
          end
      | None => None
      end
  end.

(** [reached p n]: there is a node at [p] below [n] and none of the nodes
    above it, from [n] on, is a [pre] with a [code] child. *)
Fixpoint reached (p : path) (n : node) : bool :=
  match p with
  | [] => true
  | i :: p' =>
      match codeElement n, children n with
      | None, Some l =>
          match l !! i with
          | Some c => reached p' c
          | None => false
          end
      | _, _ => false
      end
  end.

(** The number of nodes of a tree. *)
Fixpoint size (n : node) : nat :=
  match n with
  | Node _ _ _ ch _ =>
      match ch with
      | Some l => S (list_sum (map size l))
      | None => 1
      end
  end.

(** What holds of the calls of a visit of the node at [p]: no position
    twice, the positions reached from the node, no more of them than the
    tree has nodes. *)
Definition calls_spec (n : node) : Prop :=
  forall p,
    NoDup (snd (visit_traced p n)) /\
    (forall q, q ∈ snd (visit_traced p n) <->
               exists q', q = p ++ q' /\ reached q' n = true) /\
    length (snd (visit_traced p n)) <= size n.

(** Some node of the tree is an element tagged [pre]. *)
Fixpoint has_pre (n : node) : bool :=
  match n with
  | Node _ _ _ ch _ =>
      is_element "pre" n ||
      match ch with
      | Some l => existsb has_pre l
      | None => false
      end
  end.

(** The payloads of the nodes of type [text] of a tree, in document order. *)
Fixpoint leaf_texts (n : node) : list string :=
  match n with
  | Node ty _ _ ch v =>
      if String.eqb ty "text" then
        match v with
        | Some s => [s]
        | None => []
        end
      else
        match ch with
        | Some l => flat_map leaf_texts l
        | None => []
        end
  end.

(** [wrapped_at p pre code out]: in [out] the position [p] holds a
    container of [pre] and of a copy control whose [data-code] is the
    concatenation of the text payloads below [code]. *)
Definition wrapped_at (p : path) (pre code out : node) : Prop :=
  subtree p out =
  Some (container pre (copyButton (Some (String.concat "" (leaf_texts code))))).

(** ** Trees with values that are not nodes

    The pass is called on whatever the earlier passes leave.  [any] adds to
    the node objects the values on which the reads of [visit] and of
    [extractTextFromNode] go wrong: [null] and [undefined], on which a
    property read throws a [TypeError]; primitive values, on which a
    property read gives [undefined]; and, as the [children] of an object, a
    value that is not an array and has no [find] and no [map], so that the
    call of either throws. *)

Inductive field (A : Type) : Type :=
| Absent
| Array (l : list A)
| NotArray (truthy : bool).

Arguments Absent {A}.
Arguments Array {A} l.
Arguments NotArray {A} truthy.

Unset Elimination Schemes.
Inductive any : Type :=
| Nullish
| Prim (s : string)
| Obj (ty : string) (tg : option string) (ps : option props)
      (ch : field any) (v : option string).
Set Elimination Schemes.

(** A call that returns or throws a [TypeError]. *)
Inductive result (A : Type) : Type :=
| Ok (a : A)
| TypeError.

Arguments Ok {A} a.
Arguments TypeError {A}.

(** A node as a value. *)
Fixpoint inject (n : node) : any :=
  match n with
  | Node ty tg ps ch v =>
      Obj ty tg ps
        match ch with
        | Some l => Array (map inject l)
        | None => Absent
        end
        v
  end.

(** [type === 'element' && tagName === tag] on the fields of an object *)
Definition is_tagged (tag ty : string) (tg : option string) : bool :=
  String.eqb ty "element" &&
  match tg with
  | Some t => String.eqb t tag
  | None => false
  end.

(** [Array.map] with a callback that may throw: the first throw ends it. *)
Definition map_result {A B : Type} (f : A -> result B) : list A -> result (list B) :=
  fix each (l : list A) : result (list B) :=
    match l with
    | [] => Ok []
    | c :: l' =>
        match f c with
        | TypeError => TypeError
        | Ok r =>
            match each l' with
            | TypeError => TypeError
            | Ok rs => Ok (r :: rs)
            end
        end
    end.

Fixpoint extractTextFromNode_any (a : any) : result (option string) :=
  match a with
  | Nullish => TypeError
  | Prim _ => Ok (Some "")
  | Obj ty _ _ ch v =>
      if String.eqb ty "text" then Ok v
      else
        match ch with
        | Absent => Ok (Some "")
        | NotArray truthy => if truthy then TypeError else Ok (Some "")
        | Array l =>
            match map_result extractTextFromNode_any l with
            | TypeError => TypeError
            | Ok parts => Ok (Some (join parts))
            end
        end
  end.

(** [children.find(child => child.type === 'element' &&
    child.tagName === 'code')] on an array: the callback throws on a
    [null] that comes before the first [code] element. *)
Fixpoint find_code_any (l : list any) : result (option any) :=
  match l with
  | [] => Ok None
  | c :: l' =>
      match c with
      | Nullish => TypeError
      | Prim _ => find_code_any l'
      | Obj ty tg _ _ _ =>
          if is_tagged "code" ty tg then Ok (Some c) else find_code_any l'
      end
  end.

Definition container_any (a button : any) : any :=
  Obj "element" (Some "div")
    (Some [ ("className", PList ["code-block-container"; "group"]) ])
    (Array [a; button]) None.

(** A call of [visit] returns, with its argument as the call leaves it and
    the reference returned, or throws, with its argument as the throw
    leaves it. *)
Inductive outcome : Type :=
| Returned (after ret : any)
| Threw (after : any).

(** [children.map(visit)]: the children as the calls leave them, and the
    references returned when no call throws.  The children after the one
    that throws are not visited. *)
Definition visit_each (f : any -> outcome) : list any -> list any * option (list any) :=
  fix each (l : list any) : list any * option (list any) :=
    match l with
    | [] => ([], Some [])
    | c :: l' =>
        match f c with
        | Threw c' => (c' :: l', None)
        | Returned c' r =>
            let '(after, rets) := each l' in
            (c' :: after, option_map (cons r) rets)
        end
    end.

(** [visit] on any value.  Nothing in the source catches a [TypeError]: a
    throw below a node ends the call on the node before the assignment to
    its [children]. *)
Fixpoint visit_any (a : any) : outcome :=
  match a with
  | Nullish => Threw a
  | Prim _ => Returned a a
  | Obj ty tg ps ch v =>
      let descend :=
        match ch with
        | Absent => Returned a a
        | NotArray truthy => if truthy then Threw a else Returned a a
        | Array l =>
            match visit_each visit_any l with
            | (_, Some rets) =>
                Returned (Obj ty tg ps (Array rets) v) (Obj ty tg ps (Array rets) v)
            | (after, None) => Threw (Obj ty tg ps (Array after) v)
            end
        end in
      if is_tagged "pre" ty tg then
        match ch with
        | Absent => descend
        | NotArray _ => Threw a
        | Array l =>
            match find_code_any l with
            | TypeError => Threw a
            | Ok None => descend
            | Ok (Some code) =>
                match extractTextFromNode_any code with
                | TypeError => Threw a
                | Ok codeText =>
                    Returned a (container_any a (inject (copyButton codeText)))
                end
            end
        end
      else descend
  end.

(** The pass ends with the tree transformed, or is ended by a throw with
    the tree as the throw leaves it. *)
Inductive pass_outcome : Type :=
| Completed (tree : any)
| Aborted (tree : any).

Definition rehypeCopyButton_any (tree : any) : pass_outcome :=
  match visit_any tree with
  | Returned after _ => Completed after
  | Threw after => Aborted after
  end.

(** The value at position [p] below [t]. *)
Fixpoint subtree_any (p : path) (t : any) : option any :=
  match p with
  | [] => Some t
  | i :: p' =>
      match t with
      | Obj _ _ _ (Array l) _ =>
          match l !! i with
          | Some c => subtree_any p' c
          | None => None
          end
      | _ => None
      end
  end.

(** [descended_any p t]: every object above the position [p], from [t]
    on, has an array of children and is not wrapped, so that [visit] goes
    on into its children. *)
Fixpoint descended_any (p : path) (t : any) : bool :=
  match p with
  | [] => true
  | i :: p' =>
      match t with
      | Obj ty tg _ (Array l) _ =>
          (negb (is_tagged "pre" ty tg) ||
           match find_code_any l with
           | Ok None => true
           | _ => false
           end) &&
          match l !! i with
          | Some c => descended_any p' c
          | None => false
          end
      | _ => false
      end
  end.

(** The values on which a call of [visit] throws before it visits any
    child: [null] and [undefined], and an object whose [children] is not an
    array and is either truthy or read by [find]. *)
Definition throws_at_once (a : any) : bool :=
  match a with
  | Nullish => true
  | Obj ty tg _ (NotArray truthy) _ => truthy || is_tagged "pre" ty tg
  | _ => false
  end.

(** ** Trees used below *)

Definition text (s : string) : node := Node "text" None None None (Some s).

Definition elem (tag : string) (cs : list node) : node :=
  Node "element" (Some tag) (Some []) (Some cs) None.

Definition root (cs : list node) : node := Node "root" None None (Some cs) None.

(** [<pre><code>x</code></pre>] *)
Definition pre_x : node := elem "pre" [elem "code" [text "x"]].

(** [code[ "const ", span["x"], " = 1;" ]] *)
Definition code_const : node :=
  elem "code" [text "const "; elem "span" [text "x"]; text " = 1;"].

(** A document with a code block inside a block quote. *)
Definition doc_quote : node :=
  root [elem "blockquote" [elem "p" [text "a"]; pre_x]; text "z"].

(** A document without a code block. *)
Definition doc_plain : node :=
  root [elem "h1" [text "Title"]; elem "blockquote" [elem "p" [text "a"]]].

(** A [pre] without a [code] child, a code block further down. *)
Definition pre_plain : node := elem "pre" [text "a"; elem "div" [pre_x]].

(** A code block below a node that is neither an element nor a text. *)
Definition doc_mdx : node :=
  root [Node "mdxJsxFlowElement" None None (Some [pre_x]) None; text "z"].

(** A code block whose [code] element holds a code block of its own. *)
Definition doc_nested : node :=
  root [elem "pre" [elem "code" [pre_x]]].

(** A document whose second child is [null], beside a code block. *)
Definition doc_null : any :=
  Obj "root" None None (Array [inject pre_x; Nullish]) None.

(** A [null] after a block quote that holds a code block. *)
Definition doc_null_late : any :=
  Obj "root" None None
    (Array [inject (elem "blockquote" [pre_x]); Nullish]) None.

(** A paragraph whose [children] is a string, after a code block. *)
Definition doc_string_children : any :=
  Obj "root" None None
    (Array [inject pre_x;
            Obj "element" (Some "p") (Some []) (NotArray true) None]) None.

(** A document of one code block. *)
Definition doc_one : node := root [pre_x].

(** A code block without text. *)
Definition doc_empty : node := root [elem "pre" [elem "code" []]].

(** ** The build configuration: [assetsInlineLimit]

    [String.prototype.endsWith]: the search string is compared with the
    substring of its length that ends where the string ends. *)

Definition endsWith (s searchString : string) : bool :=
  let start := String.length s - String.length searchString in
  Nat.leb (String.length searchString) (String.length s) &&
  String.eqb (substring start (String.length searchString) s) searchString.

(** The function returns [false] or, falling off its end, [undefined]
    ([None]). *)
Definition assetsInlineLimit (source : string) : option bool :=
  if endsWith source "favicon.svg" || endsWith source "apple-touch-icon.png"
  then Some false
  else None.

(** ** The copy buttons of the page (the effect of [Index])

    What the click handler reads and writes of a button: its class list
    ([classList], the tokens in order, none twice) and its [data-code]
    attribute ([None] when [getAttribute] returns [null]); and what is
    under way: the calls of [navigator.clipboard.writeText] in the order
    they were made, the calls that have not settled, the timers that have
    not fired, the errors logged. *)

Record copy_state : Type := CopyState {
  classList : list string;
  data_code : option string;
  writes : list string;
  pending_writes : nat;
  pending_timers : nat;
  errors_logged : nat }.

(** [classList.add(token)] and [classList.remove(token)] *)
Definition classList_add (token : string) (l : list string) : list string :=
  if existsb (String.eqb token) l then l else l ++ [token].

Definition classList_remove (token : string) (l : list string) : list string :=
  List.filter (fun t => negb (String.eqb token t)) l.

(** [handleCopyClick] up to its [await]: the attribute is read and, when it
    is a string that is not empty, handed to [writeText]. [clipboard] says
    whether [navigator.clipboard] is defined: when it is not, the read of
    [writeText] throws inside the [try], no write is made and the [catch]
    logs the error at once. *)
Definition handleCopyClick (clipboard : bool) (s : copy_state) : copy_state :=
  match data_code s with
  | Some codeText =>
      if String.eqb codeText "" then s
      else if clipboard then
        CopyState (classList s) (data_code s) (writes s ++ [codeText])
          (S (pending_writes s)) (pending_timers s) (errors_logged s)
      else
        CopyState (classList s) (data_code s) (writes s)
          (pending_writes s) (pending_timers s) (S (errors_logged s))
  | None => s
  end.

(** [handleCopyClick] after its [await], when the write succeeded: the
    button gets the class [copied] and a timer is set. *)
Definition write_resolved (s : copy_state) : option copy_state :=
  match pending_writes s with
  | 0 => None
  | S n =>
      Some (CopyState (classList_add "copied" (classList s)) (data_code s)
              (writes s) n (S (pending_timers s)) (errors_logged s))
  end.

(** The [catch] of [handleCopyClick]: the error is logged. *)
Definition write_rejected (s : copy_state) : option copy_state :=
  match pending_writes s with
  | 0 => None
  | S n =>
      Some (CopyState (classList s) (data_code s) (writes s) n
              (pending_timers s) (S (errors_logged s)))
  end.

(** The callback of [setTimeout]. *)
Definition timer_fired (s : copy_state) : option copy_state :=
  match pending_timers s with
  | 0 => None
  | S n =>
      Some (CopyState (classList_remove "copied" (classList s)) (data_code s)
              (writes s) (pending_writes s) n (errors_logged s))
  end.

Inductive copy_event : Type :=
| Click (clipboard : bool)
| WriteResolved
| WriteRejected
| TimerFired.

(** One event on a button; [None] when the event cannot happen (no write
    to settle, no timer to fire). *)
Definition copy_step (e : copy_event) (s : copy_state) : option copy_state :=
  match e with
  | Click clipboard => Some (handleCopyClick clipboard s)
  | WriteResolved => write_resolved s
  | WriteRejected => write_rejected s
  | TimerFired => timer_fired s
  end.

Fixpoint copy_run (es : list copy_event) (s : copy_state) : option copy_state :=
  match es with
  | [] => Some s
  | e :: es' =>
      match copy_step e s with
      | Some s' => copy_run es' s'
      | None => None
      end
  end.

Definition is_event (e e' : copy_event) : bool :=
  match e, e' with
  | Click c, Click c' => Bool.eqb c c'
  | WriteResolved, WriteResolved => true
  | WriteRejected, WriteRejected => true
  | TimerFired, TimerFired => true
  | _, _ => false
  end.

(** How often an event occurs in a sequence. *)
Definition occurrences (e : copy_event) (es : list copy_event) : nat :=
  length (List.filter (is_event e) es).

(** A button when the effect has attached the handler to it. *)
Definition mounted (classes : list string) (code : option string) : copy_state :=
  CopyState classes code [] 0 0 0.

(** ** The article list ([BlogContent])

    The number printed on an article: [String(index + 1).padStart(2, '0')]. *)

(** [String(n)] on a natural number. *)
Definition String_of_nat (n : nat) : string :=
  NilEmpty.string_of_uint (Nat.to_uint n).

(** The first [k] characters of [fillString] repeated; [cur] is what is
    left of the copy being written. *)
Fixpoint filler (k : nat) (cur fillString : string) : string :=
  match k with
  | 0 => ""
  | S k' =>
      match cur with
      | String a rest => String a (filler k' rest fillString)
      | EmptyString =>
          match fillString with
          | String a rest => String a (filler k' rest fillString)
          | EmptyString => ""
          end
      end
  end.

(** [s.padStart(maxLength, fillString)] *)
Definition padStart (maxLength : nat) (fillString s : string) : string :=
  if Nat.leb maxLength (String.length s) then s
  else if String.eqb fillString "" then s
  else (filler (maxLength - String.length s) fillString fillString ++ s)%string.

Definition article_number (index : nat) : string :=
  padStart 2 "0" (String_of_nat (index + 1)).

Module Framework.
Record t : Type := mk {
  id : string;
  name : string;
  available : bool;
  color : string }.
End Framework.

Inductive Difficulty : Type :=
| Beginner
| Intermediate
| Advanced.

(** A post without its [component], which is a compiled document. *)
Module BlogPost.
Record t : Type := mk {
  id : string;
  title : string;
  description : string;
  readTime : string;
  tags : list string;
  date : string;
  difficulty : Difficulty;
  frameworks : list Framework.t;
  defaultFramework : string }.
End BlogPost.

Definition allFrameworks : list Framework.t :=
  [ Framework.mk "react" "React" true "from-blue-500 to-cyan-500";
    Framework.mk "vue" "Vue" false "from-green-500 to-emerald-500";
    Framework.mk "angular" "Angular" false "from-red-500 to-pink-500" ].

Definition blogPosts : list BlogPost.t :=
  [ BlogPost.mk "basic-testing" "Getting Started with React Testing"
      "Learn the fundamentals of testing React applications with Vitest and Testing Library."
      "5 min" ["Basics"; "Vitest"; "Testing Library"] "2024-01-15" Beginner
      match allFrameworks with
      | react :: _ => [react]
      | [] => []
      end
      "react" ].

(** The third post of the source, which is commented out there, had [vue]
    been available: a post with tabs, two of which can be clicked. *)
Definition posts_with_tabs : list BlogPost.t :=
  [ BlogPost.mk "hooks-testing" "Testing Custom React Hooks"
      "Master the art of testing custom hooks with practical examples and best practices."
      "6 min" ["Hooks"; "Custom Hooks"; "Advanced"] "2024-01-05" Advanced
      [ Framework.mk "react" "React" true "from-blue-500 to-cyan-500";
        Framework.mk "vue" "Vue" true "from-green-500 to-emerald-500";
        Framework.mk "angular" "Angular" false "from-red-500 to-pink-500" ]
      "react" ].

Definition difficultyColors (d : Difficulty) : string :=
  match d with
  | Beginner => "from-green-500 to-emerald-500"
  | Intermediate => "from-yellow-500 to-orange-500"
  | Advanced => "from-red-500 to-pink-500"
  end.

(** A button of [ArticleTabs]: [onClick] is the framework handed to
    [onFrameworkChange] by a click, [None] when a click calls nothing;
    [soon] says whether the badge is shown. *)
Record tab : Type := Tab {
  key : string;
  onClick : option string;
  disabled : bool;
  className : string;
  label : string;
  soon : bool }.

Definition tab_of (count : nat) (activeFramework : string)
    (index : nat) (framework : Framework.t) : tab :=
  let isActive := String.eqb activeFramework (Framework.id framework) in
  let isFirst := Nat.eqb index 0 in
  let isLast := Nat.eqb index (count - 1) in
  Tab (Framework.id framework)
    (if Framework.available framework then Some (Framework.id framework) else None)
    (negb (Framework.available framework))
    ("relative px-6 py-3 text-sm font-semibold transition-all duration-300 " ++
     (if isFirst then "rounded-tl-2xl" else "") ++ " " ++
     (if isLast then "rounded-tr-2xl" else "") ++ " " ++
     (if isActive then
        "bg-gradient-to-r " ++ Framework.color framework ++
        " border-b-2 border-transparent text-white shadow-lg"
      else if Framework.available framework then
        "border-b-2 border-gray-700 bg-gray-800 text-gray-300 hover:bg-gray-700 hover:text-white"
      else
        "cursor-not-allowed border-b-2 border-gray-700 bg-gray-800 text-gray-500") ++
     " ")%string
    (Framework.name framework)
    (negb (Framework.available framework)).

(** [ArticleTabs]: [None] is the [null] returned for at most one framework. *)
Definition ArticleTabs (frameworks : list Framework.t) (activeFramework : string) :
  option (list tab) :=
  if Nat.leb (length frameworks) 1 then None
  else Some (imap (tab_of (length frameworks) activeFramework) frameworks).

(** The own properties of the object in the state of [BlogContent].
    [acc[k] = v] defines the property [k], but for [k = "__proto__"], which
    is the setter of the prototype and ignores a string. *)
Definition assign (k v : string) (acc : gmap string string) : gmap string string :=
  if String.eqb k "__proto__" then acc else <[k := v]> acc.

(** The initial state: [posts.reduce((acc, post) => ..., {})]. *)
Definition initialActiveFrameworks (posts : list BlogPost.t) : gmap string string :=
  fold_left
    (fun acc post => assign (BlogPost.id post) (BlogPost.defaultFramework post) acc)
    posts ∅.

(** [prev => ({ ...prev, [postId]: framework })] *)
Definition handleFrameworkChange (postId framework : string)
    (prev : gmap string string) : gmap string string :=
  <[postId := framework]> prev.

(** A click on the tab [j] of the article [i]. The tabs are rendered with
    [activeFramework="React"]. *)
Definition click_tab (posts : list BlogPost.t) (ij : nat * nat)
    (st : gmap string string) : gmap string string :=
  match posts !! ij.1 with
  | Some post =>
      match ArticleTabs (BlogPost.frameworks post) "React" with
      | Some tabs =>
          match tabs !! ij.2 with
          | Some t =>
              match onClick t with
              | Some framework =>
                  handleFrameworkChange (BlogPost.id post) framework st
              | None => st
              end
          | None => st
          end
      | None => st
      end
  | None => st
  end.

(** The state after a sequence of clicks. *)
Definition after_clicks (posts : list BlogPost.t) (clicks : list (nat * nat)) :
  gmap string string :=
  fold_left (fun st ij => click_tab posts ij st) clicks
    (initialActiveFrameworks posts).

(** [selectable posts k f]: [f] is the default framework of a post with
    the identifier [k], or a framework of such a post that is available and
    is shown on a tab. *)
Definition selectable (posts : list BlogPost.t) (k f : string) : Prop :=
  exists post,
    In post posts /\ BlogPost.id post = k /\
    (f = BlogPost.defaultFramework post \/
     1 < length (BlogPost.frameworks post) /\
     exists fw, In fw (BlogPost.frameworks post) /\
                Framework.id fw = f /\ Framework.available fw = true).

(** ** Measures of a tree *)

(** The number of blocks a visit of [n] wraps: the nodes on which [visit]
    is called and takes the branch that returns a container. *)
Fixpoint wrapped_blocks (n : node) : nat :=
  match n with
  | Node _ _ _ ch _ =>
      match codeElement n with
      | Some _ => 1
      | None =>
          match ch with
          | Some l => list_sum (map wrapped_blocks l)
          | None => 0
          end
      end
  end.

(** The number of containers one run of the pass leaves in the tree: the
    container of a block at the root is dropped. *)
Definition wrapped_by_pass (tree : node) : nat :=
  match codeElement tree with
  | Some _ => 0
  | None => wrapped_blocks tree
  end.

(** The number of elements of a tree with a given tag. *)
Fixpoint count_elements (tag : string) (n : node) : nat :=
  match n with
  | Node _ _ _ ch _ =>
      (if is_element tag n then 1 else 0) +
      match ch with
      | Some l => list_sum (map (count_elements tag) l)
      | None => 0
      end
  end.

(** The elements of a container and its copy control, the block taken out. *)
Definition added_elements (tag : string) : nat :=
  (if String.eqb "div" tag then 1 else 0) +
  count_elements tag (copyButton None).

(** The position [q] of [t] holds a [pre] with a [code] child. *)
Definition block_at (t : node) (q : path) : bool :=
  match subtree q t with
  | Some n =>
      match codeElement n with
      | Some _ => true
      | None => false
      end
  | None => false
  end.

(** The calls of a run that wrap: the calls of [visit] on a [pre] with a
    [code] child, the call on the root left out. *)
Definition wrapping_calls (t : node) : list path :=
  List.filter (fun q => block_at t q && negb (bool_decide (q = [])))
    (snd (visit_traced [] t)).

(** * Properties *)

(** ** Unfolding [visit] *)

Lemma visit_unfold (n : node) :
  visit n =
  match codeElement n with
  | Some code => (n, container n (copyButton (extractTextFromNode code)))
  | None =>
      match children n with
      | Some l =>
          (set_children n (map (fun c => snd (visit c)) l),
           set_children n (map (fun c => snd (visit c)) l))
      | None => (n, n)
      end
  end.
Proof. destruct n as [ty tg ps [l|] v]; reflexivity. Qed.

Lemma visit_wraps (n code : node) :
  codeElement n = Some code ->
  visit n = (n, container n (copyButton (extractTextFromNode code))).
Proof. intros H. rewrite visit_unfold, H. reflexivity. Qed.

Lemma visit_descends (n : node) (l : list node) :
  codeElement n = None ->
  children n = Some l ->
  snd (visit n) = set_children n (map (fun c => snd (visit c)) l).
Proof. intros H Hl. rewrite visit_unfold, H, Hl. reflexivity. Qed.

Lemma visit_leaf (n : node) :
  codeElement n = None -> children n = None -> visit n = (n, n).
Proof. intros H Hl. rewrite visit_unfold, H, Hl. reflexivity. Qed.

(** Without a wrap, the object passed and the reference returned are one. *)
Lemma visit_same_object (n : node) :
  codeElement n = None -> fst (visit n) = snd (visit n).
Proof.
  intros H. rewrite visit_unfold, H. destruct (children n); reflexivity.
Qed.

Lemma rehypeCopyButton_descends (t : node) :
  codeElement t = None -> rehypeCopyButton t = snd (visit t).
Proof. apply visit_same_object. Qed.

Lemma codeElement_spec (n code : node) :
  codeElement n = Some code <->
  is_element "pre" n = true /\ find_code n = Some code.
Proof.
  unfold codeElement. destruct (is_element "pre" n); split.
  - intros H. split; [reflexivity | exact H].
  - intros [_ H]. exact H.
  - discriminate.
  - intros [H _]. discriminate.
Qed.

Lemma find_code_is_code (n code : node) :
  find_code n = Some code -> is_element "code" code = true.
Proof.
  unfold find_code. destruct (children n) as [l|]; [|discriminate].
  intros H. apply find_some in H. apply H.
Qed.

Lemma is_element_type (tag : string) (n : node) :
  is_element tag n = true -> type n = "element" /\ tagName n = Some tag.
Proof.
  unfold is_element. intros H. apply andb_prop in H as [Hty Htg].
  apply String.eqb_eq in Hty. split; [exact Hty|].
  destruct (tagName n) as [t|]; [|discriminate].
  apply String.eqb_eq in Htg. congruence.
Qed.

(** The result of a visit has the tag of the node visited, unless the node
    is wrapped. *)
Lemma visit_keeps_tag (tag : string) (n : node) :
  codeElement n = None -> is_element tag (snd (visit n)) = is_element tag n.
Proof.
  intros H. rewrite visit_unfold, H. destruct (children n); reflexivity.
Qed.

(** ** Positions *)

(** One step down a position [i :: p] that is reached or holds a node:
    the node [t] is not wrapped (when [reached] says so), it has a
    [children] array [l], and [l] has a node [c] at index [i]. *)
Ltac step_down t i l c Hc Hl Hi :=
  try (destruct (codeElement t) eqn:Hc; [discriminate|]);
  destruct (children t) as [l|] eqn:Hl; [|discriminate];
  destruct (l !! i) as [c|] eqn:Hi; [|discriminate].

(** What the pass leaves at a position it reaches is the visit of what was
    there: it depends on nothing else of the tree. *)
Lemma visit_local (p : path) :
  forall t n : node,
    reached p t = true ->
    subtree p t = Some n ->
    subtree p (snd (visit t)) = Some (snd (visit n)).
Proof.
  induction p as [|i p IH]; intros t n Hr Hs; simpl in *.
  - congruence.
  - step_down t i l c Hc Hl Hi.
    rewrite (visit_descends t l Hc Hl). simpl.
    rewrite list_lookup_fmap, Hi. simpl. apply IH; assumption.
Qed.

Lemma reached_root_descends (i : nat) (p : path) (t : node) :
  reached (i :: p) t = true -> codeElement t = None.
Proof. simpl. destruct (codeElement t); [discriminate | reflexivity]. Qed.

Lemma reached_subtree (p : path) :
  forall t : node, reached p t = true -> is_Some (subtree p t).
Proof.
  induction p as [|i p IH]; intros t Hr; simpl in *.
  - eauto.
  - step_down t i l c Hc Hl Hi. apply IH, Hr.
Qed.

Lemma subtree_app (p q : path) :
  forall t n : node,
    subtree p t = Some n -> subtree (p ++ q) t = subtree q n.
Proof.
  induction p as [|i p IH]; intros t n Hs; simpl in *.
  - congruence.
  - step_down t i l c Hc Hl Hi. apply IH, Hs.
Qed.

Lemma reached_app (p q : path) :
  forall t n : node,
    reached p t = true ->
    subtree p t = Some n ->
    reached (p ++ q) t = reached q n.
Proof.
  induction p as [|i p IH]; intros t n Hr Hs; simpl in *.
  - congruence.
  - step_down t i l c Hc Hl Hi. apply IH; assumption.
Qed.

(** The same for the tree the pass leaves, the root included when it is
    not wrapped. *)
Lemma rehypeCopyButton_at (p : path) (t n : node) :
  reached p t = true ->
  subtree p t = Some n ->
  codeElement n = None ->
  subtree p (rehypeCopyButton t) = Some (snd (visit n)).
Proof.
  intros Hr Hs Hn.
  assert (Ht : codeElement t = None).
  { destruct p as [|i p].
    - simpl in Hs. congruence.
    - apply (reached_root_descends i p), Hr. }
  rewrite (rehypeCopyButton_descends t Ht). apply visit_local; assumption.
Qed.

Lemma rehypeCopyButton_local (p : path) (t n : node) :
  p <> [] ->
  reached p t = true ->
  subtree p t = Some n ->
  subtree p (rehypeCopyButton t) = Some (snd (visit n)).
Proof.
  intros Hp Hr Hs. destruct p as [|i p]; [contradiction|].
  rewrite rehypeCopyButton_descends by (apply (reached_root_descends i p), Hr).
  apply visit_local; assumption.
Qed.

(** ** Text extraction *)

Lemma append_empty_r (s : string) : (s ++ "")%string = s.
Proof.
  induction s as [|a s IH]; [reflexivity|].
  change (String a (s ++ "")%string = String a s). rewrite IH. reflexivity.
Qed.

Lemma append_assoc (s1 s2 s3 : string) :
  ((s1 ++ s2) ++ s3)%string = (s1 ++ (s2 ++ s3))%string.
Proof.
  induction s1 as [|a s1 IH]; [reflexivity|].
  change (String a ((s1 ++ s2) ++ s3)%string = String a (s1 ++ (s2 ++ s3))%string).
  rewrite IH. reflexivity.
Qed.

Lemma concat_empty_cons (x : string) (xs : list string) :
  String.concat "" (x :: xs) = (x ++ String.concat "" xs)%string.
Proof.
  destruct xs as [|y ys]; simpl.
  - symmetry. apply append_empty_r.
  - reflexivity.
Qed.

Lemma concat_empty_app (xs ys : list string) :
  String.concat "" (xs ++ ys) =
  (String.concat "" xs ++ String.concat "" ys)%string.
Proof.
  induction xs as [|x xs IH].
  - reflexivity.
  - change ((x :: xs) ++ ys) with (x :: (xs ++ ys)).
    rewrite !concat_empty_cons, IH, append_assoc. reflexivity.
Qed.

Lemma extract_unfold (n : node) :
  extractTextFromNode n =
  if String.eqb (type n) "text" then value n
  else match children n with
       | Some l => Some (join (map extractTextFromNode l))
       | None => Some ""
       end.
Proof. destruct n; reflexivity. Qed.

(** On a node that is not of type [text] the function returns a string. *)
Lemma extract_not_text (n : node) :
  type n <> "text" ->
  extractTextFromNode n =
  Some (join (map extractTextFromNode (default [] (children n)))).
Proof.
  intros H. rewrite extract_unfold.
  destruct (String.eqb_spec (type n) "text") as [E|_]; [contradiction|].
  destruct (children n); reflexivity.
Qed.

(** What a node contributes to the string of its parent is the
    concatenation of its text payloads. *)
Lemma extract_leaf_texts (n : node) :
  default "" (extractTextFromNode n) = String.concat "" (leaf_texts n).
Proof.
  induction n as [ty tg ps v | ty tg ps l v IH] using node_children_ind; simpl.
  - destruct (String.eqb ty "text"); [destruct v|]; reflexivity.
  - destruct (String.eqb ty "text"); [destruct v; reflexivity|]. simpl.
    unfold join. induction IH as [|c l Hc _ IHl]; simpl.
    + reflexivity.
    + rewrite concat_empty_app, <- IHl, <- Hc.
      apply (concat_empty_cons (default "" (extractTextFromNode c))).
Qed.

Lemma extract_element (tag : string) (n : node) :
  is_element tag n = true ->
  extractTextFromNode n = Some (String.concat "" (leaf_texts n)).
Proof.
  intros H. apply is_element_type in H as [Hty _].
  pose proof (extract_leaf_texts n) as E.
  rewrite extract_not_text in * by (rewrite Hty; discriminate).
  simpl in E. congruence.
Qed.

(** ** The traced visit *)

Lemma visit_traced_unfold (p : path) (n : node) :
  visit_traced p n =
  match codeElement n with
  | Some code => ((n, container n (copyButton (extractTextFromNode code))), [p])
  | None =>
      match children n with
      | Some l =>
          let '(rs, calls) := map_traced visit_traced p 0 l in
          ((set_children n rs, set_children n rs), p :: calls)
      | None => ((n, n), [p])
      end
  end.
Proof. destruct n as [ty tg ps [l|] v]; reflexivity. Qed.

Lemma map_traced_cons (f : path -> node -> (node * node) * list path)
    (p : path) (i : nat) (c : node) (l : list node) :
  map_traced f p i (c :: l) =
  (snd (fst (f (p ++ [i]) c)) :: fst (map_traced f p (S i) l),
   snd (f (p ++ [i]) c) ++ snd (map_traced f p (S i) l)).
Proof.
  simpl. destruct (f (p ++ [i]) c) as [r calls].
  destruct (map_traced f p (S i) l) as [rs calls']. reflexivity.
Qed.

(** The trace does not change what the visit computes. *)
Lemma map_traced_fst (p : path) (l : list node) :
  Forall (fun c => forall q, fst (visit_traced q c) = visit c) l ->
  forall i, fst (map_traced visit_traced p i l) = map (fun c => snd (visit c)) l.
Proof.
  induction 1 as [|c l Hc _ IH]; intros i.
  - reflexivity.
  - rewrite map_traced_cons. simpl. rewrite Hc, IH. reflexivity.
Qed.

Lemma visit_traced_fst (n : node) :
  forall p, fst (visit_traced p n) = visit n.
Proof.
  induction n as [ty tg ps v | ty tg ps l v IH] using node_children_ind;
    intros p; rewrite visit_traced_unfold, visit_unfold;
    destruct (codeElement _); try reflexivity.
  cbn [children]. pose proof (map_traced_fst p l IH 0) as E.
  destruct (map_traced visit_traced p 0 l) as [rs calls]. simpl in *.
  rewrite E. reflexivity.
Qed.

Lemma map_traced_calls (p : path) (l : list node) :
  Forall calls_spec l ->
  forall i,
    NoDup (snd (map_traced visit_traced p i l)) /\
    (forall q, q ∈ snd (map_traced visit_traced p i l) <->
               exists j c q', l !! j = Some c /\ q = p ++ (i + j) :: q' /\
                              reached q' c = true) /\
    length (snd (map_traced visit_traced p i l)) <= list_sum (map size l).
Proof.
  induction 1 as [|c l Hc _ IH]; intros i.
  - simpl. split; [constructor|]. split; [|lia].
    intros q. split.
    + intros Hq. inversion Hq.
    + intros (j & c & q' & Hj & _). discriminate.
  - rewrite map_traced_cons. simpl snd.
    destruct (Hc (p ++ [i])) as (Hnd & Hin & Hlen).
    destruct (IH (S i)) as (Hnd' & Hin' & Hlen').
    assert (Hhere : forall q,
               q ∈ snd (visit_traced (p ++ [i]) c) <->
               exists q', q = p ++ i :: q' /\ reached q' c = true).
    { intros q. rewrite Hin. split; intros (q' & -> & Hr); exists q';
        (split; [|exact Hr]); rewrite <- app_assoc; reflexivity. }
    split; [|split].
    + apply NoDup_app. split; [exact Hnd|]. split; [|exact Hnd'].
      intros q Hq Hq'. apply Hhere in Hq as (q1 & -> & _).
      apply Hin' in Hq' as (j & c' & q2 & _ & E & _).
      apply app_inv_head in E. injection E as E _. lia.
    + intros q. rewrite elem_of_app, Hhere, Hin'. split.
      * intros [(q' & -> & Hr) | (j & c' & q' & Hj & -> & Hr)].
        -- exists 0, c, q'. rewrite Nat.add_0_r. auto.
        -- exists (S j), c', q'. rewrite Nat.add_succ_r. auto.
      * intros (j & c' & q' & Hj & -> & Hr). destruct j as [|j].
        -- left. exists q'. rewrite Nat.add_0_r. simpl in Hj.
           injection Hj as <-. auto.
        -- right. exists j, c', q'. rewrite Nat.add_succ_r. auto.
    + rewrite length_app. simpl. lia.
Qed.

Lemma reached_leaf_or_wrapped (q : path) (n : node) :
  codeElement n <> None \/ children n = None ->
  reached q n = true -> q = [].
Proof.
  destruct q as [|i q]; [reflexivity|]. simpl. intros [H | H].
  - destruct (codeElement n); [discriminate | contradiction].
  - rewrite H. destruct (codeElement n); discriminate.
Qed.

Lemma visit_traced_calls (n : node) : calls_spec n.
Proof.
  assert (Hend : forall m p,
             codeElement m <> None \/ children m = None ->
             NoDup [p] /\
             (forall q, q ∈ [p] <-> exists q', q = p ++ q' /\ reached q' m = true) /\
             1 <= size m).
  { intros m p Hm. split; [apply NoDup_singleton|]. split.
    - intros q. rewrite list_elem_of_singleton. split.
      + intros ->. exists []. rewrite app_nil_r. auto.
      + intros (q' & -> & Hr).
        rewrite (reached_leaf_or_wrapped q' m Hm Hr). apply app_nil_r.
    - destruct m as [? ? ? [l|] ?]; simpl; lia. }
  induction n as [ty tg ps v | ty tg ps l v IH] using node_children_ind;
    intros p; rewrite visit_traced_unfold;
    destruct (codeElement _) eqn:Hc;
    try (apply Hend; (left; congruence) || (right; reflexivity)).
  cbn [children].
  destruct (map_traced_calls p l IH 0) as (Hnd & Hin & Hlen).
  destruct (map_traced visit_traced p 0 l) as [rs calls]. simpl in *.
  split; [|split].
  - constructor; [|exact Hnd]. intros Hp. apply Hin in Hp as (j & c & q' & _ & E & _).
    apply (f_equal length) in E. rewrite length_app in E. simpl in E. lia.
  - intros q. rewrite elem_of_cons, Hin. split.
    + intros [-> | (j & c & q' & Hj & -> & Hr)].
      * exists []. rewrite app_nil_r. auto.
      * exists (j :: q'). split; [reflexivity|]. simpl. rewrite Hc, Hj. exact Hr.
    + intros (q' & -> & Hr). destruct q' as [|j q'].
      * left. apply app_nil_r.
      * right. simpl in Hr. rewrite Hc in Hr.
        destruct (l !! j) as [c|] eqn:Hj; [|discriminate].
        exists j, c, q'. auto.
  - lia.
Qed.

(** ** What a visit keeps *)

Lemma container_tag (tag : string) (n b : node) :
  is_element tag (container n b) = String.eqb "div" tag.
Proof. reflexivity. Qed.

(** A [code] element is one before and after its visit. *)
Lemma visit_keeps_code (c : node) :
  is_element "code" (snd (visit c)) = is_element "code" c.
Proof.
  destruct (codeElement c) as [code|] eqn:Hc.
  - rewrite (visit_wraps c code Hc). simpl snd. rewrite container_tag.
    apply codeElement_spec in Hc as [Hp _].
    apply is_element_type in Hp as [Hty Htg].
    unfold is_element. rewrite Htg. simpl. rewrite andb_false_r. reflexivity.
  - apply visit_keeps_tag, Hc.
Qed.

Lemma find_code_visited (l : list node) :
  List.find (is_element "code") l = None ->
  List.find (is_element "code") (map (fun c => snd (visit c)) l) = None.
Proof.
  induction l as [|c l IH]; simpl; [reflexivity|].
  rewrite visit_keeps_code. destruct (is_element "code" c); [discriminate|].
  exact IH.
Qed.

(** A node that is not wrapped is not one that a second visit wraps. *)
Lemma codeElement_visited (n : node) :
  codeElement n = None -> codeElement (snd (visit n)) = None.
Proof.
  intros Hc. destruct (children n) as [l|] eqn:Hl.
  - rewrite (visit_descends n l Hc Hl). unfold codeElement in *.
    change (is_element "pre" (set_children n (map (fun c => snd (visit c)) l)))
      with (is_element "pre" n).
    destruct (is_element "pre" n); [|reflexivity].
    unfold find_code in *. rewrite Hl in Hc. simpl.
    apply find_code_visited, Hc.
  - rewrite (visit_leaf n Hc Hl). exact Hc.
Qed.

(** The copy control holds no [pre]: a visit returns it as it is. *)
Lemma visit_copyButton (codeText : option string) :
  visit (copyButton codeText) = (copyButton codeText, copyButton codeText).
Proof. reflexivity. Qed.

Lemma visit_container (n b : node) :
  snd (visit (container n b)) =
  element "div" [ ("className", PList ["code-block-container"; "group"]) ]
    (Some [snd (visit n); snd (visit b)]).
Proof. reflexivity. Qed.

Lemma reached_visited (p : path) :
  forall t : node,
    reached p t = true -> reached p (snd (visit t)) = true.
Proof.
  induction p as [|i p IH]; intros t Hr; simpl in *.
  - reflexivity.
  - destruct (codeElement t) eqn:Hc; [discriminate|].
    rewrite (codeElement_visited t Hc).
    destruct (children t) as [l|] eqn:Hl; [|discriminate].
    destruct (l !! i) as [c|] eqn:Hi; [|discriminate].
    rewrite (visit_descends t l Hc Hl). simpl.
    rewrite list_lookup_fmap, Hi. simpl. apply IH, Hr.
Qed.

(** Below a node that is wrapped nothing is reached. *)
Lemma reached_below (q q' : path) :
  forall t n : node,
    reached (q ++ q') t = true ->
    subtree q t = Some n ->
    q' <> [] ->
    codeElement n = None.
Proof.
  induction q as [|i q IH]; intros t n Hr Hs Hq'; simpl in *.
  - injection Hs as <-. destruct q' as [|j q']; [contradiction|].
    apply (reached_root_descends j q'), Hr.
  - step_down t i l c Hc Hl Hi.
    apply (IH c n); assumption.
Qed.

Lemma container_first_inj (a b a' b' : node) :
  element "div" [ ("className", PList ["code-block-container"; "group"]) ]
    (Some [a; b]) = container a' b' ->
  a = a'.
Proof. unfold container. intros E. injection E as E _. exact E. Qed.

(** A second visit changes what the first returned, unless the first
    returned the node as it was. *)
Lemma visit_twice_fixed (n : node) :
  snd (visit (snd (visit n))) = snd (visit n) -> snd (visit n) = n.
Proof.
  induction n as [ty tg ps v | ty tg ps l v IH] using node_children_ind;
    [destruct (codeElement (Node ty tg ps None v)) as [code|] eqn:Hc
    |destruct (codeElement (Node ty tg ps (Some l) v)) as [code|] eqn:Hc].
  - apply codeElement_spec in Hc as [_ Hf]. discriminate Hf.
  - rewrite (visit_leaf _ Hc eq_refl). reflexivity.
  - rewrite (visit_wraps _ code Hc). cbn [snd].
    rewrite visit_container, (visit_wraps _ code Hc). cbn [snd].
    intros E. exfalso. apply container_first_inj in E.
    apply (f_equal (is_element "pre")) in E.
    apply codeElement_spec in Hc as [Hp _]. rewrite Hp in E. discriminate E.
  - pose proof (codeElement_visited _ Hc) as Hc'.
    rewrite (visit_descends _ l Hc eq_refl) in Hc' |- *.
    rewrite (visit_descends _ _ Hc' eq_refl).
    unfold set_children. cbn [type tagName properties value].
    intros E. injection E as E. f_equal. f_equal.
    clear Hc Hc'. induction IH as [|c l Hv _ IHl]; simpl in *; [reflexivity|].
    injection E as E1 E2. rewrite (Hv E1), (IHl E2). reflexivity.
Qed.

(** * The pass against its specification *)

(** ** Code blocks the pass reaches (C1) *)

(** C1, as the code has it. A [pre] with a [code] child that is not the
    root of the tree and does not lie below another [pre] with a [code]
    child is, after the pass, replaced at its position by one container,
    whose first child is the block as it was and whose second child is a
    copy control; the [data-code] of the control is the concatenation of the
    text payloads below the first [code] child, in document order, the
    empty string when there is none. *)
Theorem reached_pre_wrapped (t : node) (p : path) (pre code : node) :
  p <> [] ->
  reached p t = true ->
  subtree p t = Some pre ->
  codeElement pre = Some code ->
  wrapped_at p pre code (rehypeCopyButton t) /\
  subtree (p ++ [0]) (rehypeCopyButton t) = Some pre /\
  subtree (p ++ [1]) (rehypeCopyButton t) =
    Some (copyButton (Some (String.concat "" (leaf_texts code)))) /\
  attr "data-code" (copyButton (Some (String.concat "" (leaf_texts code)))) =
    Some (PStr (String.concat "" (leaf_texts code))).
Proof.
  intros Hp Hr Hs Hc.
  assert (W : wrapped_at p pre code (rehypeCopyButton t)).
  { unfold wrapped_at. rewrite (rehypeCopyButton_local p t pre Hp Hr Hs).
    rewrite (visit_wraps pre code Hc). simpl snd.
    apply codeElement_spec in Hc as [_ Hf].
    rewrite (extract_element "code" code (find_code_is_code pre code Hf)).
    reflexivity. }
  split; [exact W|]. unfold wrapped_at in W.
  rewrite !(subtree_app p _ _ _ W). repeat split.
Qed.

Lemma reached_pre_wrapped_witness :
  wrapped_at [0; 1] pre_x (elem "code" [text "x"]) (rehypeCopyButton doc_quote) /\
  subtree [0; 0] (rehypeCopyButton doc_quote) = Some (elem "p" [text "a"]) /\
  subtree [0; 1] (rehypeCopyButton doc_empty) = Some (copyButton (Some "")).
Proof.
  split; [|split].
  - refine (proj1 (reached_pre_wrapped doc_quote [0; 1] pre_x
                     (elem "code" [text "x"]) _ _ _ _));
      [discriminate | reflexivity | reflexivity | reflexivity].
  - reflexivity.
  - refine (proj1 (proj2 (proj2
             (reached_pre_wrapped doc_empty [0] (elem "pre" [elem "code" []])
                (elem "code" []) _ _ _ _))));
      [discriminate | reflexivity | reflexivity | reflexivity].
Defined.

(** A block at the root of the tree is not wrapped, and a block below a
    block that is wrapped is not either: it is moved one level down, with
    the block above it, and stays as it was. *)
Lemma unreached_pre_not_wrapped :
  (subtree [] pre_x = Some pre_x /\
   codeElement pre_x = Some (elem "code" [text "x"]) /\
   ~ wrapped_at [] pre_x (elem "code" [text "x"]) (rehypeCopyButton pre_x)) /\
  (subtree [0; 0; 0] doc_nested = Some pre_x /\
   codeElement pre_x = Some (elem "code" [text "x"]) /\
   ~ wrapped_at [0; 0; 0] pre_x (elem "code" [text "x"])
       (rehypeCopyButton doc_nested) /\
   subtree [0; 0; 0; 0] (rehypeCopyButton doc_nested) = Some pre_x).
Proof.
  repeat split; try reflexivity; unfold wrapped_at; vm_compute; discriminate.
Qed.

(** ** Text extraction (C2) *)

(** C2. On a node of type [text] the extraction returns the payload of the
    node; on an element it returns the concatenation of what it returns on
    the children, in order, which is the concatenation of the payloads of
    the text nodes below the element, in document order, and nothing of
    the elements themselves; on [code["const ", span["x"], " = 1;"]] it
    returns ["const x = 1;"]. *)
Theorem extractTextFromNode_spec (n : node) :
  (type n = "text" -> extractTextFromNode n = value n) /\
  (type n = "element" ->
   extractTextFromNode n =
   Some (join (map extractTextFromNode (default [] (children n)))) /\
   extractTextFromNode n = Some (String.concat "" (leaf_texts n))) /\
  extractTextFromNode code_const = Some "const x = 1;".
Proof.
  split; [|split].
  - intros Hty. rewrite extract_unfold, Hty. reflexivity.
  - intros Hty.
    assert (E : extractTextFromNode n =
                Some (join (map extractTextFromNode (default [] (children n)))))
      by (apply extract_not_text; rewrite Hty; discriminate).
    split; [exact E|].
    pose proof (extract_leaf_texts n) as T. rewrite E in T |- *.
    simpl in T. rewrite T. reflexivity.
  - reflexivity.
Qed.

Lemma extractTextFromNode_spec_witness :
  extractTextFromNode (text "x") = Some "x" /\
  extractTextFromNode code_const =
  Some (String.concat "" ["const "; "x"; " = 1;"]).
Proof.
  split.
  - exact (proj1 (extractTextFromNode_spec (text "x")) eq_refl).
  - exact (proj2 (proj1 (proj2 (extractTextFromNode_spec code_const)) eq_refl)).
Defined.

(** ** A second run (C3) *)

(** C3, as the code has it. A second run of the pass on the result of a
    first one wraps again: a block that the first run wrapped is a [pre]
    with a [code] child in the second run as well, and the container of the
    first run ends up, with a copy control of its own, in a container of
    the second. The second run returns what the first returned only when the
    first run wrapped nothing and returned its input. *)
Theorem second_run_wraps_again (t : node) :
  (rehypeCopyButton (rehypeCopyButton t) = rehypeCopyButton t <->
   rehypeCopyButton t = t) /\
  (forall p pre code,
      p <> [] ->
      reached p t = true ->
      subtree p t = Some pre ->
      codeElement pre = Some code ->
      subtree p (rehypeCopyButton (rehypeCopyButton t)) =
      Some (container
              (container pre (copyButton (extractTextFromNode code)))
              (copyButton (extractTextFromNode code)))).
Proof.
  split.
  - destruct (codeElement t) as [code|] eqn:Hc.
    + unfold rehypeCopyButton. rewrite (visit_wraps t code Hc). simpl.
      rewrite (visit_wraps t code Hc). simpl. split; reflexivity.
    + rewrite (rehypeCopyButton_descends t Hc).
      rewrite (rehypeCopyButton_descends _ (codeElement_visited t Hc)).
      split; [apply visit_twice_fixed|]. intros E. rewrite !E. reflexivity.
  - intros p pre code Hp Hr Hs Hc.
    assert (Ht : codeElement t = None).
    { destruct p as [|i p]; [contradiction|].
      apply (reached_root_descends i p), Hr. }
    rewrite (rehypeCopyButton_descends t Ht).
    rewrite (rehypeCopyButton_local p (snd (visit t))
               (container pre (copyButton (extractTextFromNode code))) Hp).
    + rewrite visit_container, (visit_wraps pre code Hc), visit_copyButton.
      reflexivity.
    + apply reached_visited, Hr.
    + rewrite (visit_local p t pre Hr Hs), (visit_wraps pre code Hc).
      reflexivity.
Qed.

Lemma second_run_wraps_again_witness :
  subtree [0; 1] (rehypeCopyButton (rehypeCopyButton doc_quote)) =
  Some (container (container pre_x (copyButton (Some "x")))
          (copyButton (Some "x"))).
Proof.
  refine (proj2 (second_run_wraps_again doc_quote) [0; 1] pre_x
            (elem "code" [text "x"]) _ _ _ _);
    [discriminate | reflexivity | reflexivity | reflexivity].
Defined.

(** A second run on the result of the first does not leave it unchanged. *)
Lemma second_run_changes_output :
  rehypeCopyButton (rehypeCopyButton doc_one) <> rehypeCopyButton doc_one.
Proof.
  intros E. apply (f_equal (subtree [0; 0])) in E. vm_compute in E.
  discriminate E.
Qed.

(** ** Values that are not nodes (C4) *)

Lemma inject_unfold (n : node) :
  inject n =
  Obj (type n) (tagName n) (properties n)
    match children n with
    | Some l => Array (map inject l)
    | None => Absent
    end
    (value n).
Proof. destruct n as [ty tg ps [l|] v]; reflexivity. Qed.

Lemma extractTextFromNode_any_inject (n : node) :
  extractTextFromNode_any (inject n) = Ok (extractTextFromNode n).
Proof.
  induction n as [ty tg ps v | ty tg ps l v IH] using node_children_ind; simpl.
  - destruct (String.eqb ty "text"); reflexivity.
  - destruct (String.eqb ty "text"); [reflexivity|].
    assert (E : map_result extractTextFromNode_any (map inject l) =
                Ok (map extractTextFromNode l)).
    { induction IH as [|c l Hc _ IHl]; simpl; [reflexivity|].
      rewrite Hc, IHl. reflexivity. }
    rewrite E. reflexivity.
Qed.

Lemma find_code_any_inject (l : list node) :
  find_code_any (map inject l) =
  Ok (option_map inject (List.find (is_element "code") l)).
Proof.
  induction l as [|c l IH]; simpl; [reflexivity|].
  rewrite (inject_unfold c).
  change (is_tagged "code" (type c) (tagName c)) with (is_element "code" c).
  destruct (is_element "code" c); [|exact IH].
  rewrite <- (inject_unfold c). reflexivity.
Qed.

Lemma visit_each_inject (l : list node) :
  Forall (fun c => visit_any (inject c) =
                   Returned (inject (fst (visit c))) (inject (snd (visit c)))) l ->
  visit_each visit_any (map inject l) =
  (map inject (map (fun c => fst (visit c)) l),
   Some (map inject (map (fun c => snd (visit c)) l))).
Proof.
  induction 1 as [|c l Hc _ IH]; simpl; [reflexivity|].
  rewrite Hc, IH. reflexivity.
Qed.

(** On a tree of nodes the pass on values is the pass on nodes. *)
Lemma visit_any_inject (n : node) :
  visit_any (inject n) =
  Returned (inject (fst (visit n))) (inject (snd (visit n))).
Proof.
  induction n as [ty tg ps v | ty tg ps l v IH] using node_children_ind.
  - rewrite visit_unfold. unfold codeElement, find_code. simpl.
    destruct (is_tagged "pre" ty tg), (is_element "pre" _); reflexivity.
  - rewrite visit_unfold. unfold codeElement, find_code. cbn [children].
    change (is_element "pre" (Node ty tg ps (Some l) v))
      with (is_tagged "pre" ty tg).
    cbn [inject visit_any].
    rewrite (visit_each_inject l IH), find_code_any_inject.
    destruct (is_tagged "pre" ty tg); [|reflexivity].
    destruct (List.find (is_element "code") l) as [code|]; [|reflexivity].
    cbn [option_map]. rewrite extractTextFromNode_any_inject. reflexivity.
Qed.

Lemma visit_each_throws (l : list any) :
  forall i c,
    l !! i = Some c ->
    (exists c', visit_any c = Threw c') ->
    snd (visit_each visit_any l) = None.
Proof.
  induction l as [|d l IH]; intros i c Hi Hc; [discriminate|]. simpl.
  destruct i as [|i].
  - injection Hi as ->. destruct Hc as [c' ->]. reflexivity.
  - destruct (visit_any d) as [d' r|d']; [|reflexivity].
    specialize (IH i c Hi Hc).
    destruct (visit_each visit_any l) as [after rets]. simpl in *.
    rewrite IH. reflexivity.
Qed.

Lemma visit_any_throws (p : path) :
  forall t a,
    descended_any p t = true ->
    subtree_any p t = Some a ->
    throws_at_once a = true ->
    exists t', visit_any t = Threw t'.
Proof.
  induction p as [|i p IH]; intros t a Hd Hs Ht; simpl in *.
  - injection Hs as ->.
    destruct a as [|s|ty tg ps [|l|truthy] v]; try discriminate; simpl in *.
    + eauto.
    + destruct (is_tagged "pre" ty tg); [eauto|].
      rewrite orb_false_r in Ht. rewrite Ht. eauto.
  - destruct t as [|s|ty tg ps [|l|truthy] v]; try discriminate.
    apply andb_prop in Hd as [Hw Hd].
    destruct (l !! i) as [c|] eqn:Hi; [|discriminate].
    pose proof (visit_each_throws l i c Hi (IH c a Hd Hs Ht)) as E.
    cbn [visit_any]. destruct (visit_each visit_any l) as [after rets].
    simpl in E. subst rets.
    destruct (is_tagged "pre" ty tg); [|eauto].
    simpl in Hw. destruct (find_code_any l) as [[code|]|]; try discriminate.
    eauto.
Qed.




(** ** Trees without a code block (C5) *)

Lemma visit_no_pre (n : node) :
  has_pre n = false -> visit n = (n, n).
Proof.
  induction n as [ty tg ps v | ty tg ps l v IH] using node_children_ind;
    intros H; simpl in H; apply orb_false_elim in H as [Hp Hl];
    rewrite visit_unfold; unfold codeElement; rewrite Hp; cbn [children].
  - reflexivity.
  - assert (E : map (fun c => snd (visit c)) l = l).
    { clear Hp. induction IH as [|c l Hc _ IHl]; simpl in *; [reflexivity|].
      apply orb_false_elim in Hl as [Hc' Hl].
      rewrite (Hc Hc'), (IHl Hl). reflexivity. }
    unfold set_children. cbn [type tagName properties value]. rewrite E.
    reflexivity.
Qed.

(** C5. On a tree in which no node is an element tagged [pre] the pass
    returns the tree as it received it: nothing is added to it. *)
Theorem no_pre_unchanged (t : node) :
  has_pre t = false -> rehypeCopyButton t = t.
Proof.
  intros H. unfold rehypeCopyButton. rewrite (visit_no_pre t H). reflexivity.
Qed.

Lemma no_pre_unchanged_witness :
  has_pre doc_plain = false /\ rehypeCopyButton doc_plain = doc_plain.
Proof.
  split; [reflexivity|]. apply (no_pre_unchanged doc_plain). reflexivity.
Defined.

(** ** A [pre] without a [code] child (C6) *)

(** C6. A [pre] element none of whose children is a [code] element is not
    wrapped: the visit returns the node itself, with its type, tag,
    properties and value, and no container; and the visit goes on into its
    children, each of which is visited and replaced by what its visit
    returns. In a tree, at a position the pass reaches, the node is where
    it was after the pass and the positions of its children are reached. *)
Theorem pre_without_code_kept (n : node) :
  is_element "pre" n = true ->
  find_code n = None ->
  fst (visit n) = snd (visit n) /\
  is_element "pre" (snd (visit n)) = true /\
  type (snd (visit n)) = type n /\
  tagName (snd (visit n)) = tagName n /\
  properties (snd (visit n)) = properties n /\
  value (snd (visit n)) = value n /\
  children (snd (visit n)) = map (fun c => snd (visit c)) <$> children n /\
  (forall p l i c,
      children n = Some l -> l !! i = Some c ->
      (p ++ [i]) ∈ snd (visit_traced p n)) /\
  (forall t p,
      reached p t = true -> subtree p t = Some n ->
      subtree p (rehypeCopyButton t) = Some (snd (visit n)) /\
      forall l i c,
        children n = Some l -> l !! i = Some c ->
        reached (p ++ [i]) t = true).
Proof.
  intros Hp Hf.
  assert (Hc : codeElement n = None) by (unfold codeElement; rewrite Hp; exact Hf).
  split; [apply visit_same_object, Hc|].
  split; [rewrite (visit_keeps_tag "pre" n Hc); exact Hp|].
  assert (F : type (snd (visit n)) = type n /\
              tagName (snd (visit n)) = tagName n /\
              properties (snd (visit n)) = properties n /\
              value (snd (visit n)) = value n /\
              children (snd (visit n)) =
              map (fun c => snd (visit c)) <$> children n).
  { rewrite visit_unfold, Hc. destruct n as [ty tg ps [l|] v]; simpl; auto. }
  destruct F as (F1 & F2 & F3 & F4 & F5). repeat (split; [assumption|]).
  assert (Hi : forall l i c,
             children n = Some l -> l !! i = Some c -> reached [i] n = true).
  { intros l i c Hl Hi. simpl. rewrite Hc, Hl, Hi. reflexivity. }
  split.
  - intros p l i c Hl Hli.
    apply (proj1 (proj2 (visit_traced_calls n p))).
    exists [i]. split; [reflexivity | exact (Hi l i c Hl Hli)].
  - intros t p Hr Hs. split; [apply rehypeCopyButton_at; assumption|].
    intros l i c Hl Hli.
    rewrite (reached_app p [i] t n Hr Hs). exact (Hi l i c Hl Hli).
Qed.

Lemma pre_without_code_kept_witness :
  is_element "pre" pre_plain = true /\
  find_code pre_plain = None /\
  is_element "pre" (snd (visit pre_plain)) = true /\
  children (snd (visit pre_plain)) =
  Some [text "a"; elem "div" [snd (visit pre_x)]].
Proof.
  split; [reflexivity|]. split; [reflexivity|].
  destruct (pre_without_code_kept pre_plain) as (_ & Hp & _ & _ & _ & _ & Hch & _);
    [reflexivity | reflexivity |].
  split; [exact Hp | exact Hch].
Defined.

(** ** The calls of one run (C7) *)

(** C7, as the code has it. One run makes finitely many calls of [visit],
    at most one for each node of the tree, and each on a node of the tree: a
    node is visited once when none of the nodes above it is a [pre] with a
    [code] child, and not at all otherwise. Below a block that is wrapped
    nothing is visited, and the container and the copy control, which are
    at no position of the input, are not visited either. *)
Theorem visit_calls (t : node) :
  fst (visit_traced [] t) = visit t /\
  NoDup (snd (visit_traced [] t)) /\
  length (snd (visit_traced [] t)) <= size t /\
  (forall q, q ∈ snd (visit_traced [] t) <-> reached q t = true) /\
  (forall q, q ∈ snd (visit_traced [] t) -> is_Some (subtree q t)) /\
  (forall q q' pre code,
      subtree q t = Some pre ->
      codeElement pre = Some code ->
      q' <> [] ->
      (q ++ q') ∉ snd (visit_traced [] t)).
Proof.
  destruct (visit_traced_calls t []) as (Hnd & Hin & Hlen).
  assert (Hin' : forall q, q ∈ snd (visit_traced [] t) <-> reached q t = true).
  { intros q. rewrite Hin. split.
    - intros (q' & -> & Hr). exact Hr.
    - intros Hr. exists q. auto. }
  split; [apply visit_traced_fst|]. split; [exact Hnd|]. split; [exact Hlen|].
  split; [exact Hin'|]. split.
  - intros q Hq. apply reached_subtree, Hin', Hq.
  - intros q q' pre code Hs Hc Hq' Hq. apply Hin' in Hq.
    rewrite (reached_below q q' t pre Hq Hs Hq') in Hc. discriminate Hc.
Qed.

Lemma visit_calls_witness :
  ([0; 1] ∈ snd (visit_traced [] doc_quote)) /\
  ([0; 1; 0] ∉ snd (visit_traced [] doc_quote)).
Proof.
  split.
  - apply (proj1 (proj2 (proj2 (proj2 (visit_calls doc_quote))))). reflexivity.
  - refine (proj2 (proj2 (proj2 (proj2 (proj2 (visit_calls doc_quote)))))
              [0; 1] [0] pre_x (elem "code" [text "x"]) _ _ _);
      [reflexivity | reflexivity | discriminate].
Defined.

(** The [code] element of a block that is wrapped is a node of the input
    that no call of [visit] is made on. *)
Lemma code_child_not_visited :
  subtree [0; 0] doc_one = Some (elem "code" [text "x"]) /\
  ([0; 0] ∉ snd (visit_traced [] doc_one)) /\
  snd (visit_traced [] doc_one) = [[]; [0]].
Proof.
  split; [reflexivity|]. split; [|reflexivity].
  rewrite list_elem_of_In. vm_compute. intuition discriminate.
Qed.

(** ** The nodes the pass creates (C8) *)

(** C8. Whenever the pass wraps a block, the container it creates has the
    class list [code-block-container group], and the copy control in it has
    the class [copy-code-button], the extracted text of the [code] child,
    as a string, under [data-code], and the label [Copy code] under
    [title]. *)
Theorem synthesized_markers (n code : node) :
  codeElement n = Some code ->
  exists s : string,
    extractTextFromNode code = Some s /\
    snd (visit n) = container n (copyButton (Some s)) /\
    attr "className" (snd (visit n)) =
      Some (PList ["code-block-container"; "group"]) /\
    attr "className" (copyButton (Some s)) = Some (PList ["copy-code-button"]) /\
    attr "data-code" (copyButton (Some s)) = Some (PStr s) /\
    attr "title" (copyButton (Some s)) = Some (PStr "Copy code").
Proof.
  intros Hc. exists (String.concat "" (leaf_texts code)).
  assert (E : extractTextFromNode code = Some (String.concat "" (leaf_texts code))).
  { apply codeElement_spec in Hc as [_ Hf].
    apply (extract_element "code"), (find_code_is_code n), Hf. }
  split; [exact E|].
  rewrite (visit_wraps n code Hc), E. repeat split.
Qed.

Lemma synthesized_markers_witness :
  codeElement pre_x = Some (elem "code" [text "x"]) /\
  exists s : string,
    extractTextFromNode (elem "code" [text "x"]) = Some s /\
    snd (visit pre_x) = container pre_x (copyButton (Some s)) /\
    attr "className" (snd (visit pre_x)) =
      Some (PList ["code-block-container"; "group"]) /\
    attr "className" (copyButton (Some s)) = Some (PList ["copy-code-button"]) /\
    attr "data-code" (copyButton (Some s)) = Some (PStr s) /\
    attr "title" (copyButton (Some s)) = Some (PStr "Copy code").
Proof.
  split; [reflexivity|].
  apply (synthesized_markers pre_x (elem "code" [text "x"])). reflexivity.
Defined.

(** ** A code block at the root (C10) *)

(** C10. When the tree passed to the pass is itself a [pre] with a [code]
    child, the pass leaves it as it is: the visit returns a container of
    it, which is not the tree and which the pass drops. *)
Theorem root_pre_not_wrapped (t code : node) :
  codeElement t = Some code ->
  rehypeCopyButton t = t /\
  snd (visit t) = container t (copyButton (extractTextFromNode code)) /\
  snd (visit t) <> rehypeCopyButton t.
Proof.
  intros Hc. unfold rehypeCopyButton. rewrite (visit_wraps t code Hc). simpl.
  repeat split. intros E.
  apply codeElement_spec in Hc as [Hp _]. rewrite <- E in Hp. discriminate Hp.
Qed.

Lemma root_pre_not_wrapped_witness :
  codeElement pre_x = Some (elem "code" [text "x"]) /\
  rehypeCopyButton pre_x = pre_x.
Proof.
  split; [reflexivity|].
  apply (root_pre_not_wrapped pre_x (elem "code" [text "x"])). reflexivity.
Defined.

(** * Further properties of the pass *)

(** ** The size of the result *)

Lemma list_sum_map_visit (f w : node -> nat) (k : nat) (l : list node) :
  Forall (fun c => f (snd (visit c)) = f c + k * w c) l ->
  list_sum (map f (map (fun c => snd (visit c)) l)) =
  list_sum (map f l) + k * list_sum (map w l).
Proof.
  induction 1 as [|c l Hc _ IH]; simpl; [lia|]. rewrite Hc, IH. lia.
Qed.

Lemma wrapped_blocks_unfold (n : node) :
  wrapped_blocks n =
  match codeElement n with
  | Some _ => 1
  | None =>
      match children n with
      | Some l => list_sum (map wrapped_blocks l)
      | None => 0
      end
  end.
Proof. destruct n as [ty tg ps [l|] v]; reflexivity. Qed.

Lemma size_unfold (n : node) :
  size n =
  match children n with
  | Some l => S (list_sum (map size l))
  | None => 1
  end.
Proof. destruct n as [ty tg ps [l|] v]; reflexivity. Qed.

Lemma size_visit (n : node) :
  size (snd (visit n)) = size n + 7 * wrapped_blocks n.
Proof.
  induction n as [ty tg ps v | ty tg ps l v IH] using node_children_ind;
    rewrite visit_unfold, wrapped_blocks_unfold;
    destruct (codeElement _) as [code|] eqn:Hc; cbn [children snd].
  - simpl. lia.
  - simpl. lia.
  - change (size (container (Node ty tg ps (Some l) v)
                    (copyButton (extractTextFromNode code))))
      with (S (size (Node ty tg ps (Some l) v) + (6 + 0))).
    lia.
  - unfold set_children. cbn [size type tagName properties value].
    rewrite (list_sum_map_visit size wrapped_blocks 7 l IH). lia.
Qed.

Lemma wrapped_by_pass_fst (t : node) :
  rehypeCopyButton t = t /\ wrapped_by_pass t = 0 \/
  rehypeCopyButton t = snd (visit t) /\ wrapped_by_pass t = wrapped_blocks t /\
  codeElement t = None.
Proof.
  unfold wrapped_by_pass. destruct (codeElement t) as [code|] eqn:Hc.
  - left. unfold rehypeCopyButton. rewrite (visit_wraps t code Hc). auto.
  - right. rewrite (rehypeCopyButton_descends t Hc). auto.
Qed.

(** X1. The tree one run returns has seven nodes more than its input for
    each block the run wraps (the container, the button, the two icons and
    their three shapes), and no node less. *)
Theorem size_rehypeCopyButton (t : node) :
  size (rehypeCopyButton t) = size t + 7 * wrapped_by_pass t.
Proof.
  destruct (wrapped_by_pass_fst t) as [[-> ->] | (-> & -> & _)].
  - lia.
  - apply size_visit.
Qed.

(** ** When the pass changes nothing *)

Lemma visit_no_block (n : node) :
  wrapped_blocks n = 0 -> snd (visit n) = n.
Proof.
  induction n as [ty tg ps v | ty tg ps l v IH] using node_children_ind;
    rewrite visit_unfold, wrapped_blocks_unfold;
    destruct (codeElement _) as [code|] eqn:Hc; cbn [children snd];
    try discriminate; try reflexivity.
  intros Hw. unfold set_children. cbn [type tagName properties value].
  f_equal. f_equal. clear Hc.
  induction IH as [|c l Hv _ IHl]; simpl in *; [reflexivity|].
  rewrite Hv, IHl by lia. reflexivity.
Qed.

(** X2. A run returns its input unchanged exactly when it wraps no block:
    when the root is itself a block, or when no [pre] with a [code] child
    is reached from the root. *)
Theorem rehypeCopyButton_identity (t : node) :
  rehypeCopyButton t = t <-> wrapped_by_pass t = 0.
Proof.
  split.
  - intros E. destruct (wrapped_by_pass_fst t) as [[_ W] | (E' & W & _)];
      [exact W|].
    pose proof (size_visit t) as S. rewrite <- E', E in S. lia.
  - intros W. destruct (wrapped_by_pass_fst t) as [[E _] | (E & W' & _)].
    + exact E.
    + rewrite E. apply visit_no_block. lia.
Qed.

(** ** The text of the document *)

Lemma leaf_texts_unfold (n : node) :
  leaf_texts n =
  if String.eqb (type n) "text" then
    match value n with
    | Some s => [s]
    | None => []
    end
  else
    match children n with
    | Some l => flat_map leaf_texts l
    | None => []
    end.
Proof. destruct n as [ty tg ps [l|] v]; reflexivity. Qed.

Lemma leaf_texts_visit (n : node) :
  leaf_texts (snd (visit n)) = leaf_texts n.
Proof.
  induction n as [ty tg ps v | ty tg ps l v IH] using node_children_ind;
    rewrite visit_unfold;
    destruct (codeElement _) as [code|] eqn:Hc; cbn [children snd];
    try reflexivity.
  - change (leaf_texts (container (Node ty tg ps None v)
                          (copyButton (extractTextFromNode code))))
      with (leaf_texts (Node ty tg ps None v) ++ []).
    apply app_nil_r.
  - change (leaf_texts (container (Node ty tg ps (Some l) v)
                          (copyButton (extractTextFromNode code))))
      with (leaf_texts (Node ty tg ps (Some l) v) ++ []).
    apply app_nil_r.
  - rewrite !leaf_texts_unfold. unfold set_children.
    cbn [type children value]. destruct (String.eqb ty "text"); [reflexivity|].
    clear Hc. induction IH as [|c l Hv _ IHl]; simpl; [reflexivity|].
    rewrite Hv, IHl. reflexivity.
Qed.

Lemma extract_by_leaf_texts (n m : node) :
  type n = type m ->
  value n = value m ->
  leaf_texts n = leaf_texts m ->
  extractTextFromNode n = extractTextFromNode m.
Proof.
  intros Hty Hv Hl. rewrite !extract_unfold, <- Hty, <- Hv.
  destruct (String.eqb_spec (type n) "text") as [E|E]; [reflexivity|].
  pose proof (extract_leaf_texts n) as En.
  pose proof (extract_leaf_texts m) as Em.
  rewrite (extract_not_text n E) in En.
  rewrite (extract_not_text m) in Em by (rewrite <- Hty; exact E).
  simpl in En, Em.
  transitivity (Some (String.concat "" (leaf_texts n))).
  - destruct (children n); simpl in En; rewrite <- En; reflexivity.
  - rewrite Hl. destruct (children m); simpl in Em; rewrite <- Em; reflexivity.
Qed.

(** X3. The pass adds no text and loses none: the text payloads of the
    tree, in document order, are the same after a run, and so is what
    [extractTextFromNode] returns on the tree. *)
Theorem text_unchanged (t : node) :
  leaf_texts (rehypeCopyButton t) = leaf_texts t /\
  extractTextFromNode (rehypeCopyButton t) = extractTextFromNode t.
Proof.
  destruct (wrapped_by_pass_fst t) as [[-> _] | (-> & _ & Hc)].
  - split; reflexivity.
  - split; [apply leaf_texts_visit|].
    apply extract_by_leaf_texts; [| |apply leaf_texts_visit];
      rewrite visit_unfold, Hc; destruct (children t); reflexivity.
Qed.

(** ** Repeated runs *)

Lemma wrapped_blocks_visit (n : node) :
  wrapped_blocks (snd (visit n)) = wrapped_blocks n.
Proof.
  induction n as [ty tg ps v | ty tg ps l v IH] using node_children_ind.
  - destruct (codeElement (Node ty tg ps None v)) as [code|] eqn:Hc.
    + apply codeElement_spec in Hc as [_ Hf]. discriminate Hf.
    + rewrite (visit_leaf _ Hc eq_refl). reflexivity.
  - destruct (codeElement (Node ty tg ps (Some l) v)) as [code|] eqn:Hc.
    + rewrite (visit_wraps _ code Hc). cbn [snd].
      rewrite (wrapped_blocks_unfold (Node ty tg ps (Some l) v)), Hc.
      change (wrapped_blocks (container (Node ty tg ps (Some l) v)
                                (copyButton (extractTextFromNode code))))
        with (wrapped_blocks (Node ty tg ps (Some l) v) + (0 + 0)).
      rewrite (wrapped_blocks_unfold (Node ty tg ps (Some l) v)), Hc.
      reflexivity.
    + pose proof (codeElement_visited _ Hc) as Hc'.
      rewrite (wrapped_blocks_unfold (snd (visit _))), Hc'.
      rewrite (wrapped_blocks_unfold (Node ty tg ps (Some l) v)), Hc.
      rewrite (visit_descends _ l Hc eq_refl). cbn [children set_children].
      clear Hc Hc'. induction IH as [|c l Hv _ IHl]; simpl; [reflexivity|].
      rewrite Hv, IHl. reflexivity.
Qed.

Lemma wrapped_by_pass_run (t : node) :
  wrapped_by_pass (rehypeCopyButton t) = wrapped_by_pass t.
Proof.
  destruct (wrapped_by_pass_fst t) as [[-> _] | (E & W & Hc)];
    [reflexivity|].
  rewrite E, W. unfold wrapped_by_pass.
  rewrite (codeElement_visited t Hc). apply wrapped_blocks_visit.
Qed.

(** X4. Every further run wraps as many blocks as the first: after [k]
    runs the tree has [7 * k] nodes more than the input for each block the
    first run wraps. *)
Theorem size_after_runs (k : nat) (t : node) :
  wrapped_by_pass (Nat.iter k rehypeCopyButton t) = wrapped_by_pass t /\
  size (Nat.iter k rehypeCopyButton t) = size t + 7 * k * wrapped_by_pass t.
Proof.
  induction k as [|k [IHw IHs]]; simpl.
  - split; [reflexivity | lia].
  - rewrite wrapped_by_pass_run, IHw. split; [reflexivity|].
    destruct (wrapped_by_pass_fst (Nat.iter k rehypeCopyButton t))
      as [[-> W] | (-> & W & _)].
    + lia.
    + rewrite size_visit, <- W, IHw, IHs. lia.
Qed.

(** ** The elements of the result *)

Lemma count_elements_unfold (tag : string) (n : node) :
  count_elements tag n =
  (if is_element tag n then 1 else 0) +
  match children n with
  | Some l => list_sum (map (count_elements tag) l)
  | None => 0
  end.
Proof. destruct n as [ty tg ps [l|] v]; reflexivity. Qed.

Lemma count_elements_container (tag : string) (n : node) (codeText : option string) :
  count_elements tag (container n (copyButton codeText)) =
  count_elements tag n + added_elements tag.
Proof.
  unfold added_elements.
  change (count_elements tag (container n (copyButton codeText)))
    with ((if String.eqb "div" tag then 1 else 0) +
          (count_elements tag n + (count_elements tag (copyButton None) + 0))).
  lia.
Qed.

Lemma is_element_set_children (tag : string) (n : node) (cs : list node) :
  is_element tag (set_children n cs) = is_element tag n.
Proof. reflexivity. Qed.

Lemma count_elements_visit (tag : string) (n : node) :
  count_elements tag (snd (visit n)) =
  count_elements tag n + added_elements tag * wrapped_blocks n.
Proof.
  induction n as [ty tg ps v | ty tg ps l v IH] using node_children_ind.
  - destruct (codeElement (Node ty tg ps None v)) as [code|] eqn:Hc.
    + apply codeElement_spec in Hc as [_ Hf]. discriminate Hf.
    + rewrite (visit_leaf _ Hc eq_refl), wrapped_blocks_unfold, Hc.
      cbn [snd children]. lia.
  - rewrite (wrapped_blocks_unfold (Node ty tg ps (Some l) v)).
    destruct (codeElement (Node ty tg ps (Some l) v)) as [code|] eqn:Hc.
    + rewrite (visit_wraps _ code Hc). cbn [snd].
      rewrite count_elements_container. lia.
    + rewrite (visit_descends _ l Hc eq_refl). cbn [children].
      rewrite !count_elements_unfold. cbn [children set_children].
      rewrite is_element_set_children.
      rewrite (list_sum_map_visit (count_elements tag) wrapped_blocks
                 (added_elements tag) l IH).
      lia.
Qed.

(** X5. A run adds, for each block it wraps, one [div], one [button], two
    [svg], one [rect], one [path] and one [polyline] element, and no element
    of any other tag; it removes no element. In particular the tree has as
    many [pre] and as many [code] elements after the run as before. *)
Theorem elements_after_run (tag : string) (t : node) :
  count_elements tag (rehypeCopyButton t) =
    count_elements tag t + added_elements tag * wrapped_by_pass t /\
  (~ In tag ["div"; "button"; "svg"; "rect"; "path"; "polyline"] ->
   count_elements tag (rehypeCopyButton t) = count_elements tag t) /\
  map added_elements ["div"; "button"; "svg"; "rect"; "path"; "polyline"] =
    [1; 1; 2; 1; 1; 1].
Proof.
  assert (E : count_elements tag (rehypeCopyButton t) =
              count_elements tag t + added_elements tag * wrapped_by_pass t).
  { destruct (wrapped_by_pass_fst t) as [[-> ->] | (-> & -> & _)].
    - lia.
    - apply count_elements_visit. }
  split; [exact E|]. split; [|reflexivity].
  intros Hn. rewrite E.
  assert (Z : added_elements tag = 0); [|rewrite Z; lia].
  unfold added_elements. simpl in Hn.
  assert (F : forall s, s <> tag -> String.eqb s tag = false)
    by (intros s Hs; apply String.eqb_neq, Hs).
  cbv [count_elements copyButton copy_icon check_icon element is_element
       type tagName children map list_sum fold_right andb].
  change (String.eqb "element" "element") with true. cbv iota.
  rewrite !F by (intros Hs; apply Hn; tauto). reflexivity.
Qed.

Lemma elements_after_run_witness :
  count_elements "pre" (rehypeCopyButton doc_quote) = 1 /\
  count_elements "button" (rehypeCopyButton doc_quote) = 1.
Proof.
  split.
  - rewrite (proj1 (proj2 (elements_after_run "pre" doc_quote))).
    + reflexivity.
    + simpl. intros H. decompose [or] H; discriminate || contradiction.
  - rewrite (proj1 (elements_after_run "button" doc_quote)). reflexivity.
Defined.

(** ** The calls that wrap *)

Lemma block_at_spec (t : node) (q : path) (n : node) :
  subtree q t = Some n ->
  block_at t q = match codeElement n with Some _ => true | None => false end.
Proof. intros H. unfold block_at. rewrite H. reflexivity. Qed.

Lemma map_traced_blocks (t : node) (p : path) (l : list node) :
  Forall (fun c => forall q, subtree q t = Some c ->
            length (List.filter (block_at t) (snd (visit_traced q c))) =
            wrapped_blocks c) l ->
  forall i,
    (forall j c, l !! j = Some c -> subtree (p ++ [i + j]) t = Some c) ->
    length (List.filter (block_at t) (snd (map_traced visit_traced p i l))) =
    list_sum (map wrapped_blocks l).
Proof.
  induction 1 as [|c l Hc _ IH]; intros i Hsub.
  - reflexivity.
  - rewrite map_traced_cons. cbn [snd]. rewrite List.filter_app, length_app.
    rewrite (Hc (p ++ [i])).
    + rewrite (IH (S i)); [reflexivity|].
      intros j c' Hj. replace (S i + j) with (i + S j) by lia.
      apply Hsub. exact Hj.
    + replace i with (i + 0) at 1 by lia. apply Hsub. reflexivity.
Qed.

Lemma visit_traced_blocks (n : node) :
  forall (t : node) (p : path),
    subtree p t = Some n ->
    length (List.filter (block_at t) (snd (visit_traced p n))) =
    wrapped_blocks n.
Proof.
  induction n as [ty tg ps v | ty tg ps l v IH] using node_children_ind;
    intros t p Hs; rewrite visit_traced_unfold, wrapped_blocks_unfold;
    pose proof (block_at_spec t p _ Hs) as Hb;
    destruct (codeElement _) as [code|] eqn:Hc; cbn [children].
  - simpl. rewrite Hb. reflexivity.
  - simpl. rewrite Hb. reflexivity.
  - simpl. rewrite Hb. reflexivity.
  - assert (IH' : Forall (fun c => forall q, subtree q t = Some c ->
                     length (List.filter (block_at t) (snd (visit_traced q c))) =
                     wrapped_blocks c) l)
      by (eapply Forall_impl; [exact IH | intros c Hcq q; apply Hcq]).
    pose proof (map_traced_blocks t p l IH' 0) as E.
    destruct (map_traced visit_traced p 0 l) as [rs calls].
    cbn [snd] in *. simpl. rewrite Hb. apply E.
    intros j c Hj. change (0 + j) with j.
    rewrite (subtree_app p [j] t _ Hs). simpl. rewrite Hj. reflexivity.
Qed.

(** X6. The blocks a run wraps are the calls of [visit] on a [pre] with a
    [code] child, the call on the root left out: at the position of each
    such call the tree the run returns holds the container of the block
    that was there, and the tree has seven nodes and one [button] more for
    each such call. *)
Theorem wrapped_by_pass_calls (t : node) :
  wrapped_by_pass t = length (wrapping_calls t) /\
  size (rehypeCopyButton t) = size t + 7 * length (wrapping_calls t) /\
  count_elements "button" (rehypeCopyButton t) =
    count_elements "button" t + length (wrapping_calls t) /\
  (forall q,
      In q (wrapping_calls t) ->
      exists pre code,
        subtree q t = Some pre /\ codeElement pre = Some code /\
        subtree q (rehypeCopyButton t) =
        Some (container pre (copyButton (extractTextFromNode code)))).
Proof.
  assert (W : wrapped_by_pass t = length (wrapping_calls t)).
  { unfold wrapped_by_pass, wrapping_calls.
    rewrite visit_traced_unfold, wrapped_blocks_unfold.
    destruct (codeElement t) as [code|] eqn:Hc.
    - simpl. rewrite andb_false_r. reflexivity.
    - pose proof (visit_traced_blocks t t [] eq_refl) as E.
      rewrite visit_traced_unfold, Hc, wrapped_blocks_unfold, Hc in E.
      pose proof (proj1 (visit_traced_calls t [])) as Hnd.
      rewrite visit_traced_unfold, Hc in Hnd.
      destruct (children t) as [l|]; [|simpl; rewrite andb_false_r; reflexivity].
      destruct (map_traced visit_traced [] 0 l) as [rs calls]. cbn [snd] in *.
      simpl in E |- *. rewrite andb_false_r.
      assert (B : block_at t [] = false)
        by (unfold block_at; simpl; rewrite Hc; reflexivity).
      rewrite B in E. rewrite <- E. f_equal.
      apply NoDup_cons in Hnd as [Hnil _].
      clear E. induction calls as [|q calls IHc]; simpl; [reflexivity|].
      rewrite not_elem_of_cons in Hnil. destruct Hnil as [Hq Hrest].
      rewrite (bool_decide_eq_false_2 (q = [])) by congruence.
      rewrite andb_true_r, (IHc Hrest). reflexivity. }
  split; [exact W|]. rewrite <- W. split; [|split].
  - destruct (wrapped_by_pass_fst t) as [[-> ->] | (-> & -> & _)];
      [lia | apply size_visit].
  - destruct (wrapped_by_pass_fst t) as [[-> ->] | (-> & -> & _)]; [lia|].
    rewrite count_elements_visit.
    change (added_elements "button") with 1. lia.
  - intros q Hq. unfold wrapping_calls in Hq.
    apply filter_In in Hq as [Hcall Hb].
    apply andb_prop in Hb as [Hb Hroot].
    apply negb_true_iff, bool_decide_eq_false in Hroot.
    apply list_elem_of_In, (proj1 (proj2 (visit_traced_calls t []))) in Hcall.
    destruct Hcall as (q' & -> & Hr). simpl in *.
    unfold block_at in Hb.
    destruct (subtree q' t) as [pre|] eqn:Hs; [|discriminate].
    destruct (codeElement pre) as [code|] eqn:Hc; [|discriminate].
    exists pre, code. split; [reflexivity|]. split; [exact Hc|].
    rewrite (rehypeCopyButton_local q' t pre Hroot Hr Hs).
    rewrite (visit_wraps pre code Hc). reflexivity.
Qed.

Lemma wrapped_by_pass_calls_witness :
  wrapping_calls doc_quote = [[0; 1]] /\
  subtree [0; 1] (rehypeCopyButton doc_quote) =
    Some (container pre_x (copyButton (Some "x"))).
Proof.
  split; [reflexivity|].
  destruct (proj2 (proj2 (proj2 (wrapped_by_pass_calls doc_quote))) [0; 1])
    as (pre & code & Hs & Hc & Ho).
  - left. reflexivity.
  - rewrite Ho. injection Hs as <-. injection Hc as <-. reflexivity.
Defined.

(** * The build configuration *)

Lemma append_cons (a : Ascii.ascii) (s t : string) :
  (String a s ++ t)%string = String a (s ++ t)%string.
Proof. reflexivity. Qed.

Lemma length_append (s t : string) :
  String.length (s ++ t)%string = String.length s + String.length t.
Proof.
  induction s as [|a s IH]; [reflexivity|].
  rewrite append_cons. simpl. rewrite IH. reflexivity.
Qed.

Lemma substring_whole (s : string) : substring 0 (String.length s) s = s.
Proof. induction s as [|a s IH]; simpl; [reflexivity | rewrite IH; reflexivity]. Qed.

Lemma substring_after (d t : string) :
  substring (String.length d) (String.length t) (d ++ t)%string = t.
Proof.
  induction d as [|a d IH]; [apply substring_whole|].
  rewrite append_cons. simpl. exact IH.
Qed.

Lemma substring_split (s : string) :
  forall k, k <= String.length s ->
    s = (substring 0 k s ++ substring k (String.length s - k) s)%string.
Proof.
  induction s as [|a s IH]; intros k Hk; simpl in Hk.
  - replace k with 0 by lia. reflexivity.
  - destruct k as [|k].
    + simpl. rewrite substring_whole. reflexivity.
    + simpl. rewrite append_cons. f_equal. apply IH. lia.
Qed.

(** [endsWith] holds of the strings that are the search string with
    something before it. *)
Lemma endsWith_spec (s t : string) :
  endsWith s t = true <-> exists d, s = (d ++ t)%string.
Proof.
  unfold endsWith. rewrite andb_true_iff, Nat.leb_le, String.eqb_eq. split.
  - intros [Hlen Hsub].
    exists (substring 0 (String.length s - String.length t) s).
    assert (Hk : String.length s - String.length t <= String.length s) by lia.
    pose proof (substring_split s _ Hk) as E.
    replace (String.length s - (String.length s - String.length t))
      with (String.length t) in E by lia.
    rewrite Hsub in E. exact E.
  - intros [d ->]. rewrite length_append. split; [lia|].
    replace (String.length d + String.length t - String.length t)
      with (String.length d) by lia.
    apply substring_after.
Qed.

(** X7. [assetsInlineLimit] answers [false] for the paths that end in
    [favicon.svg] or in [apple-touch-icon.png], whatever comes before, and
    gives no answer for any other path; it never answers [true]. *)
Theorem assetsInlineLimit_spec (source : string) :
  (assetsInlineLimit source = Some false <->
   exists dir, source = (dir ++ "favicon.svg")%string \/
               source = (dir ++ "apple-touch-icon.png")%string) /\
  (assetsInlineLimit source = None <->
   forall dir, source <> (dir ++ "favicon.svg")%string /\
               source <> (dir ++ "apple-touch-icon.png")%string) /\
  assetsInlineLimit source <> Some true.
Proof.
  unfold assetsInlineLimit.
  destruct (endsWith source "favicon.svg") eqn:E1;
    [|destruct (endsWith source "apple-touch-icon.png") eqn:E2]; simpl.
  - apply endsWith_spec in E1 as [d ->]. repeat split; try discriminate.
    + intros _. exists d. auto.
    + intros H. destruct (H d) as [H1 _]. contradiction.
  - apply endsWith_spec in E2 as [d ->]. repeat split; try discriminate.
    + intros _. exists d. auto.
    + intros H. destruct (H d) as [_ H2]. contradiction.
  - assert (N1 : forall d, source <> (d ++ "favicon.svg")%string).
    { intros d ->. rewrite (proj2 (endsWith_spec _ _)) in E1 by eauto.
      discriminate. }
    assert (N2 : forall d, source <> (d ++ "apple-touch-icon.png")%string).
    { intros d ->. rewrite (proj2 (endsWith_spec _ _)) in E2 by eauto.
      discriminate. }
    repeat split; try discriminate; auto.
    intros [d [H | H]]; exfalso; [apply (N1 d H) | apply (N2 d H)].
Qed.

(** * The number of an article *)

Lemma length_filler (k : nat) (fillString : string) :
  fillString <> "" ->
  forall cur, String.length (filler k cur fillString) = k.
Proof.
  intros Hf. induction k as [|k IH]; intros cur; [reflexivity|].
  simpl. destruct cur as [|a rest]; simpl.
  - destruct fillString as [|a rest]; [contradiction|]. simpl. rewrite IH.
    reflexivity.
  - rewrite IH. reflexivity.
Qed.

(** [padStart] never shortens and never changes the string it pads: the
    result ends with the string, is the string itself when that is long
    enough or the fill is empty, and has otherwise exactly the length asked
    for. *)
Lemma padStart_spec (maxLength : nat) (fillString s : string) :
  endsWith (padStart maxLength fillString s) s = true /\
  (maxLength <= String.length s \/ fillString = "" ->
   padStart maxLength fillString s = s) /\
  (fillString <> "" ->
   String.length (padStart maxLength fillString s) =
   Nat.max maxLength (String.length s)).
Proof.
  unfold padStart. split; [|split].
  - apply endsWith_spec.
    destruct (Nat.leb maxLength (String.length s)); [exists ""; reflexivity|].
    destruct (String.eqb fillString ""); [exists ""; reflexivity|]. eauto.
  - intros [H | ->].
    + apply Nat.leb_le in H. rewrite H. reflexivity.
    + destruct (Nat.leb maxLength (String.length s)); reflexivity.
  - intros Hf. destruct (Nat.leb_spec maxLength (String.length s)) as [H|H].
    + lia.
    + apply String.eqb_neq in Hf. rewrite Hf, length_append.
      rewrite length_filler by (apply String.eqb_neq, Hf). lia.
Qed.

(** The number a string of digits stands for. *)
Lemma padded_number (s : string) (d : Decimal.uint) :
  NilEmpty.uint_of_string s = Some d ->
  exists d', NilEmpty.uint_of_string (padStart 2 "0" s) = Some d' /\
             Nat.of_uint d' = Nat.of_uint d.
Proof.
  intros H. destruct s as [|a [|b r]].
  - injection H as <-. exists (Decimal.D0 (Decimal.D0 Decimal.Nil)).
    split; reflexivity.
  - exists (Decimal.D0 d). split; [|reflexivity].
    change (NilEmpty.uint_of_string (padStart 2 "0" (String a "")))
      with (uint_of_char "0"%char (NilEmpty.uint_of_string (String a ""))).
    rewrite H. reflexivity.
  - exists d. split; [exact H | reflexivity].
Qed.

(** X8. The number printed on an article has at least two characters and
    reads as the position of the article counted from one: two articles
    never carry the same number. *)
Theorem article_number_spec (i : nat) :
  2 <= String.length (article_number i) /\
  (exists d, NilEmpty.uint_of_string (article_number i) = Some d /\
             Nat.of_uint d = i + 1) /\
  (forall j, article_number i = article_number j -> i = j).
Proof.
  assert (N : forall k, exists d,
             NilEmpty.uint_of_string (article_number k) = Some d /\
             Nat.of_uint d = k + 1).
  { intros k. unfold article_number, String_of_nat.
    destruct (padded_number _ _ (NilEmpty.usu (Nat.to_uint (k + 1))))
      as (d & Hd & Hv).
    exists d. split; [exact Hd|]. rewrite Hv. apply Unsigned.of_to. }
  split; [|split; [apply N|]].
  - unfold article_number.
    rewrite (proj2 (proj2 (padStart_spec 2 "0" _))) by discriminate. lia.
  - intros j E. destruct (N i) as (d & Hd & Hv), (N j) as (d' & Hd' & Hv').
    rewrite E, Hd' in Hd. injection Hd as <-. lia.
Qed.

Lemma article_number_spec_witness :
  article_number 0 = "01" /\ article_number 11 = "12" /\
  (article_number 0 = article_number 0 -> 0 = 0).
Proof.
  split; [reflexivity|]. split; [reflexivity|].
  exact (proj2 (proj2 (article_number_spec 0)) 0).
Defined.

(** * The state of the article list *)

Lemma assign_lookup (k v k' : string) (acc : gmap string string) :
  assign k v acc !! k' =
  if bool_decide (k = k' /\ k <> "__proto__") then Some v else acc !! k'.
Proof.
  unfold assign. destruct (String.eqb_spec k "__proto__") as [E|E].
  - rewrite bool_decide_eq_false_2 by tauto. reflexivity.
  - destruct (decide (k = k')) as [<-|Hk].
    + rewrite bool_decide_eq_true_2 by tauto. apply lookup_insert_eq.
    + rewrite bool_decide_eq_false_2 by tauto. apply lookup_insert_ne, Hk.
Qed.

Lemma initialActiveFrameworks_snoc (posts : list BlogPost.t) (p : BlogPost.t) :
  initialActiveFrameworks (posts ++ [p]) =
  assign (BlogPost.id p) (BlogPost.defaultFramework p)
    (initialActiveFrameworks posts).
Proof. unfold initialActiveFrameworks. rewrite fold_left_app. reflexivity. Qed.

Lemma initialActiveFrameworks_from (posts : list BlogPost.t) (k f : string) :
  initialActiveFrameworks posts !! k = Some f ->
  k <> "__proto__" /\
  exists post, In post posts /\ BlogPost.id post = k /\
               BlogPost.defaultFramework post = f.
Proof.
  induction posts as [|p posts IH] using rev_ind.
  - unfold initialActiveFrameworks. simpl. rewrite lookup_empty. discriminate.
  - rewrite initialActiveFrameworks_snoc, assign_lookup. case_bool_decide as Hk.
    + intros [= <-]. destruct Hk as [<- Hp]. split; [exact Hp|].
      exists p. rewrite in_app_iff. simpl. auto.
    + intros H. destruct (IH H) as (Hp & post & Hin & Hid & Hd).
      split; [exact Hp|]. exists post. rewrite in_app_iff. auto.
Qed.

(** X9. The initial state of [BlogContent] has a key for the identifier
    of each post, [__proto__] left out, and no other key; when no two
    posts have the same identifier, each post is found under its identifier
    with its default framework. *)
Theorem initialActiveFrameworks_spec (posts : list BlogPost.t) :
  (forall k f,
      initialActiveFrameworks posts !! k = Some f ->
      k <> "__proto__" /\
      exists post, In post posts /\ BlogPost.id post = k /\
                   BlogPost.defaultFramework post = f) /\
  (forall post,
      In post posts -> BlogPost.id post <> "__proto__" ->
      is_Some (initialActiveFrameworks posts !! BlogPost.id post)) /\
  (NoDup (map BlogPost.id posts) ->
   forall post,
     In post posts -> BlogPost.id post <> "__proto__" ->
     initialActiveFrameworks posts !! BlogPost.id post =
     Some (BlogPost.defaultFramework post)).
Proof.
  split; [apply initialActiveFrameworks_from|]. split.
  - induction posts as [|p posts IH] using rev_ind; intros post Hin Hp.
    + destruct Hin.
    + rewrite initialActiveFrameworks_snoc, assign_lookup.
      case_bool_decide as Hk; [eauto|].
      apply in_app_iff in Hin as [Hin | [<- | []]]; [apply IH; assumption|].
      tauto.
  - induction posts as [|p posts IH] using rev_ind; intros Hnd post Hin Hp.
    + destruct Hin.
    + rewrite map_app in Hnd. apply NoDup_app in Hnd as (Hnd & Hdis & _).
      rewrite initialActiveFrameworks_snoc, assign_lookup.
      apply in_app_iff in Hin as [Hin | [<- | []]].
      * rewrite bool_decide_eq_false_2; [apply IH; assumption|].
        intros [E _]. apply (Hdis (BlogPost.id post)).
        -- apply list_elem_of_In, in_map, Hin.
        -- rewrite <- E. simpl. apply list_elem_of_In. simpl. auto.
      * rewrite bool_decide_eq_true_2 by tauto. reflexivity.
Qed.

Lemma initialActiveFrameworks_spec_witness :
  initialActiveFrameworks blogPosts !! "basic-testing" = Some "react".
Proof.
  refine (proj2 (proj2 (initialActiveFrameworks_spec blogPosts)) _
            (BlogPost.mk "basic-testing" _ _ _ _ _ _ _ _) _ _).
  - repeat constructor. intros H. inversion H.
  - left. reflexivity.
  - discriminate.
Defined.

(** What a click on a tab does to the state. *)
Lemma click_tab_cases (posts : list BlogPost.t) (ij : nat * nat)
    (st : gmap string string) :
  click_tab posts ij st = st \/
  exists post fw,
    In post posts /\ 1 < length (BlogPost.frameworks post) /\
    In fw (BlogPost.frameworks post) /\ Framework.available fw = true /\
    click_tab posts ij st = <[BlogPost.id post := Framework.id fw]> st.
Proof.
  unfold click_tab. destruct (posts !! ij.1) as [post|] eqn:Hp; [|auto].
  unfold ArticleTabs.
  destruct (Nat.leb_spec (length (BlogPost.frameworks post)) 1) as [|Hlen];
    [auto|].
  rewrite list_lookup_imap.
  destruct (BlogPost.frameworks post !! ij.2) as [fw|] eqn:Hf; simpl; [|auto].
  destruct (Framework.available fw) eqn:Ha; [|auto].
  right. exists post, fw. repeat split; try assumption.
  - apply list_elem_of_In, list_elem_of_lookup. eauto.
  - apply list_elem_of_In, list_elem_of_lookup. eauto.
Qed.

Lemma selectable_click (posts : list BlogPost.t) (ij : nat * nat)
    (st : gmap string string) :
  (forall k f, st !! k = Some f -> selectable posts k f) ->
  forall k f, click_tab posts ij st !! k = Some f -> selectable posts k f.
Proof.
  intros Inv k f.
  destruct (click_tab_cases posts ij st)
    as [-> | (post & fw & Hin & Hlen & Hfw & Ha & ->)]; [apply Inv|].
  destruct (decide (BlogPost.id post = k)) as [<-|Hk].
  - rewrite lookup_insert_eq. intros [= <-]. exists post. eauto 10.
  - rewrite lookup_insert_ne by exact Hk. apply Inv.
Qed.

(** X10. Whatever tabs are clicked, the framework recorded for a post is
    its default framework or an available framework shown on one of its
    tabs, never a framework that is not available; and when no post has more
    than one framework, no tab is shown and the state stays the initial
    one. *)
Theorem selection_invariant (posts : list BlogPost.t) (clicks : list (nat * nat)) :
  (forall k f, after_clicks posts clicks !! k = Some f -> selectable posts k f) /\
  ((forall post, In post posts -> length (BlogPost.frameworks post) <= 1) ->
   after_clicks posts clicks = initialActiveFrameworks posts).
Proof.
  unfold after_clicks. split.
  - assert (G : forall st,
               (forall k f, st !! k = Some f -> selectable posts k f) ->
               forall k f,
                 fold_left (fun st ij => click_tab posts ij st) clicks st !! k
                 = Some f -> selectable posts k f).
    { induction clicks as [|ij clicks IH]; intros st Inv; simpl; [exact Inv|].
      apply IH, selectable_click, Inv. }
    apply G. intros k f H.
    destruct (initialActiveFrameworks_from posts k f H) as (_ & post & Hin & Hid & Hd).
    exists post. auto.
  - intros Hone. generalize (initialActiveFrameworks posts) as st.
    induction clicks as [|ij clicks IH]; intros st; simpl; [reflexivity|].
    destruct (click_tab_cases posts ij st)
      as [-> | (post & fw & Hin & Hlen & _)]; [apply IH|].
    specialize (Hone post Hin). lia.
Qed.

Lemma selection_invariant_witness :
  after_clicks posts_with_tabs [(0, 1)] !! "hooks-testing" = Some "vue" /\
  selectable posts_with_tabs "hooks-testing" "vue" /\
  after_clicks posts_with_tabs [(0, 1); (0, 2)] !! "hooks-testing" = Some "vue" /\
  after_clicks blogPosts [(0, 0); (0, 1)] = initialActiveFrameworks blogPosts.
Proof.
  split; [vm_compute; reflexivity|]. split; [|split; [vm_compute; reflexivity|]].
  - apply (proj1 (selection_invariant posts_with_tabs [(0, 1)])).
    vm_compute. reflexivity.
  - apply (proj2 (selection_invariant blogPosts [(0, 0); (0, 1)])).
    intros post [<- | []]. simpl. lia.
Defined.

(** * The copy buttons of the page *)

Lemma classList_remove_add (t : string) (l : list string) :
  classList_remove t (classList_add t l) = classList_remove t l.
Proof.
  unfold classList_add, classList_remove.
  destruct (existsb (String.eqb t) l); [reflexivity|].
  rewrite List.filter_app. simpl. rewrite String.eqb_refl. simpl.
  apply app_nil_r.
Qed.

Lemma classList_remove_remove (t : string) (l : list string) :
  classList_remove t (classList_remove t l) = classList_remove t l.
Proof.
  unfold classList_remove. induction l as [|c l IH]; simpl; [reflexivity|].
  destruct (negb (String.eqb t c)) eqn:E; simpl; rewrite ?E, IH; reflexivity.
Qed.

Lemma classList_remove_not_in (t : string) (l : list string) :
  ~ In t (classList_remove t l).
Proof.
  unfold classList_remove. intros H. apply filter_In in H as [_ H].
  rewrite String.eqb_refl in H. discriminate H.
Qed.

Lemma classList_remove_absent (t : string) (l : list string) :
  ~ In t l -> classList_remove t l = l.
Proof.
  unfold classList_remove. induction l as [|c l IH]; simpl; intros H;
    [reflexivity|].
  destruct (String.eqb_spec t c) as [->|_]; simpl.
  - exfalso. apply H. auto.
  - rewrite IH by tauto. reflexivity.
Qed.

(** One event leaves the classes other than [copied] as they are, and
    leaves [copied] only with a timer that will remove it. *)
Lemma copy_step_classes (e : copy_event) (s s' : copy_state) :
  copy_step e s = Some s' ->
  classList_remove "copied" (classList s') =
    classList_remove "copied" (classList s) /\
  ((In "copied" (classList s) -> 0 < pending_timers s) ->
   In "copied" (classList s') -> 0 < pending_timers s').
Proof.
  destruct e; simpl.
  - intros [= <-]. unfold handleCopyClick.
    destruct (data_code s) as [t|];
      [destruct (String.eqb t ""); [|destruct clipboard]|]; auto.
  - unfold write_resolved. destruct (pending_writes s); [discriminate|].
    intros [= <-]. simpl. split; [apply classList_remove_add | lia].
  - unfold write_rejected. destruct (pending_writes s); [discriminate|].
    intros [= <-]. simpl. auto.
  - unfold timer_fired. destruct (pending_timers s); [discriminate|].
    intros [= <-]. simpl. split; [apply classList_remove_remove|].
    intros _ H. destruct (classList_remove_not_in _ _ H).
Qed.

Lemma copy_run_classes (es : list copy_event) :
  forall s s',
    copy_run es s = Some s' ->
    classList_remove "copied" (classList s') =
      classList_remove "copied" (classList s) /\
    ((In "copied" (classList s) -> 0 < pending_timers s) ->
     In "copied" (classList s') -> 0 < pending_timers s').
Proof.
  induction es as [|e es IH]; intros s s'; simpl.
  - intros [= <-]. auto.
  - destruct (copy_step e s) as [s1|] eqn:E; [|discriminate].
    intros H. destruct (copy_step_classes e s s1 E) as [C1 T1].
    destruct (IH s1 s' H) as [C2 T2]. split; [congruence | auto].
Qed.

(** X11. Whatever is clicked and however the writes end, the handler
    touches no class of a button but [copied], the button has the class
    [copied] only while a timer that removes it has not fired, and when no
    timer is left the class list is the one the button had at first. *)
Theorem copied_class_is_removed
    (classes : list string) (code : option string)
    (es : list copy_event) (s' : copy_state) :
  ~ In "copied" classes ->
  copy_run es (mounted classes code) = Some s' ->
  classList_remove "copied" (classList s') = classes /\
  (In "copied" (classList s') -> 0 < pending_timers s') /\
  (pending_timers s' = 0 -> classList s' = classes).
Proof.
  intros Hc H. destruct (copy_run_classes es _ _ H) as [C T]. simpl in C, T.
  rewrite (classList_remove_absent _ _ Hc) in C.
  assert (T' : In "copied" (classList s') -> 0 < pending_timers s')
    by (apply T; intros Hin; destruct (Hc Hin)).
  split; [exact C|]. split; [exact T'|].
  intros H0. rewrite <- C. symmetry. apply classList_remove_absent.
  intros Hin. apply T' in Hin. lia.
Qed.

Lemma copied_class_is_removed_witness :
  copy_run [Click true; WriteResolved; TimerFired]
    (mounted ["copy-code-button"] (Some "x")) =
    Some (CopyState ["copy-code-button"] (Some "x") ["x"] 0 0 0) /\
  classList (CopyState ["copy-code-button"] (Some "x") ["x"] 0 0 0) =
    ["copy-code-button"].
Proof.
  split; [reflexivity|].
  refine (proj2 (proj2 (copied_class_is_removed ["copy-code-button"] (Some "x")
                          [Click true; WriteResolved; TimerFired] _ _ _)) _).
  - simpl. intros [H | []]. discriminate H.
  - reflexivity.
  - reflexivity.
Defined.

(** The book-keeping of a run on a button with a text to copy. *)
Lemma copy_run_accounts (text : string) (es : list copy_event) :
  text <> "" ->
  forall s s',
    data_code s = Some text ->
    copy_run es s = Some s' ->
    data_code s' = Some text /\
    writes s' = writes s ++ repeat text (occurrences (Click true) es) /\
    pending_writes s' + occurrences WriteResolved es +
      occurrences WriteRejected es =
      pending_writes s + occurrences (Click true) es /\
    pending_timers s' + occurrences TimerFired es =
      pending_timers s + occurrences WriteResolved es /\
    errors_logged s' =
      errors_logged s + occurrences WriteRejected es +
      occurrences (Click false) es.
Proof.
  intros Ht. apply String.eqb_neq in Ht. unfold occurrences.
  induction es as [|e es IH]; intros s s' Hd; simpl.
  - intros [= <-]. rewrite app_nil_r. repeat split; try lia. exact Hd.
  - destruct e as [[|]| | |]; simpl.
    + unfold handleCopyClick. rewrite Hd, Ht. intros H.
      apply IH in H; [|simpl; first [exact Hd | reflexivity]].
      destruct H as (D & W & P & T & E). simpl in *.
      rewrite W, <- app_assoc. repeat split; try lia; assumption.
    + unfold handleCopyClick. rewrite Hd, Ht. intros H.
      apply IH in H; [|simpl; first [exact Hd | reflexivity]].
      destruct H as (D & W & P & T & E). simpl in *.
      repeat split; try lia; assumption.
    + unfold write_resolved. destruct (pending_writes s) eqn:Hp; [discriminate|].
      intros H. apply IH in H; [|simpl; first [exact Hd | reflexivity]].
      destruct H as (D & W & P & T & E). simpl in *.
      repeat split; try lia; assumption.
    + unfold write_rejected. destruct (pending_writes s) eqn:Hp; [discriminate|].
      intros H. apply IH in H; [|simpl; first [exact Hd | reflexivity]].
      destruct H as (D & W & P & T & E). simpl in *.
      repeat split; try lia; assumption.
    + unfold timer_fired. destruct (pending_timers s) eqn:Hp; [discriminate|].
      intros H. apply IH in H; [|simpl; first [exact Hd | reflexivity]].
      destruct H as (D & W & P & T & E). simpl in *.
      repeat split; try lia; assumption.
Qed.

(** X12. On a button with a [data-code] that is not empty, every click
    made while [navigator.clipboard] is defined hands that text to the
    clipboard, once, and nothing else is ever handed to it; a click made
    while it is not defined writes nothing and logs one error. Each write
    that succeeds sets one timer, each that fails logs one error. *)
Theorem clicks_write_data_code
    (classes : list string) (text : string)
    (es : list copy_event) (s' : copy_state) :
  text <> "" ->
  copy_run es (mounted classes (Some text)) = Some s' ->
  writes s' = repeat text (occurrences (Click true) es) /\
  pending_writes s' + occurrences WriteResolved es +
    occurrences WriteRejected es = occurrences (Click true) es /\
  pending_timers s' + occurrences TimerFired es =
    occurrences WriteResolved es /\
  errors_logged s' =
    occurrences WriteRejected es + occurrences (Click false) es.
Proof.
  intros Ht H.
  destruct (copy_run_accounts text es Ht (mounted classes (Some text)) s'
              eq_refl H) as (_ & W & P & T & E).
  simpl in *. auto.
Qed.

Lemma clicks_write_data_code_witness :
  copy_run [Click true; Click false; Click true; WriteRejected]
    (mounted ["copy-code-button"] (Some "x")) =
    Some (CopyState ["copy-code-button"] (Some "x") ["x"; "x"] 1 0 2) /\
  writes (CopyState ["copy-code-button"] (Some "x") ["x"; "x"] 1 0 2) =
    repeat "x" 2 /\
  errors_logged (CopyState ["copy-code-button"] (Some "x") ["x"; "x"] 1 0 2) =
    1 + 1.
Proof.
  split; [reflexivity|].
  destruct (clicks_write_data_code ["copy-code-button"] "x"
              [Click true; Click false; Click true; WriteRejected]
              (CopyState ["copy-code-button"] (Some "x") ["x"; "x"] 1 0 2))
    as (W & _ & _ & E); [discriminate | reflexivity |].
  split; [exact W | exact E].
Defined.

Lemma copy_run_idle (es : list copy_event) (s : copy_state) :
  data_code s = None \/ data_code s = Some "" ->
  pending_writes s = 0 ->
  pending_timers s = 0 ->
  forall s',
    copy_run es s = Some s' ->
    s' = s /\ Forall (fun e => exists clipboard, e = Click clipboard) es.
Proof.
  intros Hd Hw Ht. induction es as [|e es IH]; intros s'; simpl.
  - intros [= <-]. split; [reflexivity | constructor].
  - assert (Hc : forall c, handleCopyClick c s = s).
    { intros c. unfold handleCopyClick. destruct Hd as [-> | ->]; reflexivity. }
    destruct e as [c| | |]; simpl; unfold write_resolved, write_rejected, timer_fired;
      rewrite ?Hc, ?Hw, ?Ht; try discriminate.
    intros H. destruct (IH s' H) as [E F]. split; [exact E|].
    constructor; [eauto | exact F].
Qed.

(** X13. On a button without a [data-code], or with an empty one, the
    handler does nothing at all: no text is handed to the clipboard, no
    class is set, no timer started, no error logged, however often the
    button is clicked and whether [navigator.clipboard] is defined or
    not. *)
Theorem empty_data_code_is_inert
    (classes : list string) (code : option string)
    (es : list copy_event) (s' : copy_state) :
  code = None \/ code = Some "" ->
  copy_run es (mounted classes code) = Some s' ->
  s' = mounted classes code /\
  Forall (fun e => exists clipboard, e = Click clipboard) es.
Proof.
  intros Hc H. apply (copy_run_idle es (mounted classes code)); auto.
Qed.

Lemma empty_data_code_is_inert_witness :
  copy_run [Click true; Click false] (mounted ["copy-code-button"] (Some "")) =
    Some (mounted ["copy-code-button"] (Some "")) /\
  Forall (fun e => exists clipboard, e = Click clipboard)
    [Click true; Click false].
Proof.
  split; [reflexivity|].
  refine (proj2 (empty_data_code_is_inert ["copy-code-button"] (Some "")
                   [Click true; Click false] _ _ _));
    [right; reflexivity | reflexivity].
Defined.

(** ** From the pass to the clipboard *)

(** X14. Let a button of the page carry, as its [data-code] attribute, the
    value the copy control of a wrapped block has under [data-code]. Then
    the attribute is the text of the [code] child of the block; when that
    text is not empty, every click made while [navigator.clipboard] is
    defined hands exactly that text to the clipboard and nothing else is
    handed to it, and when it is empty no click does anything. *)
Theorem clicks_copy_the_code
    (n code b : node) (classes : list string) (attribute : option string)
    (es : list copy_event) (s' : copy_state) :
  codeElement n = Some code ->
  children (snd (visit n)) = Some [n; b] ->
  attr "data-code" b = Some (prop_of_text attribute) ->
  copy_run es (mounted classes attribute) = Some s' ->
  attribute = Some (String.concat "" (leaf_texts code)) /\
  writes s' =
    (if String.eqb (String.concat "" (leaf_texts code)) "" then []
     else repeat (String.concat "" (leaf_texts code))
            (occurrences (Click true) es)).
Proof.
  intros Hc Hb Ha H.
  assert (E : extractTextFromNode code = Some (String.concat "" (leaf_texts code))).
  { apply codeElement_spec in Hc as [_ Hf].
    apply (extract_element "code"), (find_code_is_code n), Hf. }
  rewrite (visit_wraps n code Hc), E in Hb. simpl in Hb.
  injection Hb as <-.
  assert (A : attribute = Some (String.concat "" (leaf_texts code))).
  { change (attr "data-code" (copyButton (Some (String.concat "" (leaf_texts code)))))
      with (Some (PStr (String.concat "" (leaf_texts code)))) in Ha.
    destruct attribute as [a|]; simpl in Ha; congruence. }
  split; [exact A|]. subst attribute.
  destruct (String.eqb_spec (String.concat "" (leaf_texts code)) "") as [Z|Z].
  - rewrite Z in H.
    destruct (copy_run_idle es (mounted classes (Some ""))
                (or_intror eq_refl) eq_refl eq_refl s' H) as [-> _].
    reflexivity.
  - destruct (copy_run_accounts _ es Z (mounted classes _) s' eq_refl H)
      as (_ & W & _).
    exact W.
Qed.

Lemma clicks_copy_the_code_witness :
  children (snd (visit pre_x)) = Some [pre_x; copyButton (Some "x")] /\
  attr "data-code" (copyButton (Some "x")) = Some (prop_of_text (Some "x")) /\
  writes (CopyState ["copy-code-button"; "copied"] (Some "x") ["x"] 0 1 1) =
    ["x"].
Proof.
  split; [reflexivity|]. split; [reflexivity|].
  refine (proj2 (clicks_copy_the_code pre_x (elem "code" [text "x"])
                   (copyButton (Some "x")) ["copy-code-button"] (Some "x")
                   [Click false; Click true; WriteResolved] _ _ _ _ _));
    reflexivity.
Defined.
